(** * The animal guessing game of HW3-4.cpp: an adaptive yes/no decision tree

    The development embeds the classes [Animal], [DynamicAnimal], [Node],
    [AnimalTree] and [AnimalGame] of [src/HW3-4.cpp] and proves properties of
    the tree the game grows.

    Modelling choices.
    - A [std::unique_ptr<T>] is an owning, nullable pointer: [option T].
      Because every [Node] is owned by exactly one [unique_ptr], the object
      graph under a root is a tree and [Node] is an inductive type.
    - A raw [Node*] (the [current] argument of [askQuestions] and
      [learnNewAnimal]) designates a node inside some tree instance: the
      instance that owns it and the sequence of [yes]/[no] branches leading
      to it from that instance's root.  Dereferencing a pointer that
      designates nothing (a null or a dangling pointer) is undefined
      behaviour in C++; the model reports it as [Fault].
    - [std::cin] is the list of the values the successive extractions
      ([operator>>], [std::getline]) return; an extraction from the exhausted
      stream leaves the freshly constructed string empty.  [std::cout] is
      the list of the texts written so far, one per output statement.
    - The [while] loop of [askQuestions] runs on fuel.
    - The file holds the program twice: first with the root owned by
      [AnimalGame] itself, then with the root owned by an [AnimalTree]
      member.  The member functions modelled here have the same bodies in
      both; the second version is the one followed.
    - [promptAfterRound], [play] and [main] can end the process; they live
      in a second monad whose outcomes include the exit.  The extraction
      of the [int choice] follows the stream's decimal conversion, with a
      32-bit [int]; a stream in its failed state is one that yields nothing
      any more. *)

From Stdlib Require Import Ascii.
From stdpp Require Import base option list strings.

(** ** Data model *)

(** [class DynamicAnimal : public Animal], the only concrete [Animal]. *)
Inductive Animal : Type :=
  | DynamicAnimal (name : string).

Definition getName (a : Animal) : string :=
  match a with DynamicAnimal name => name end.

(** [class Node]: four public fields. *)
#[warnings="-register-all"]
Inductive Node : Type :=
  | mkNode (question : string) (yes : option Node) (no : option Node)
           (animal : option Animal).

Definition question (n : Node) : string :=
  match n with mkNode q _ _ _ => q end.
Definition yes (n : Node) : option Node :=
  match n with mkNode _ y _ _ => y end.
Definition no (n : Node) : option Node :=
  match n with mkNode _ _ f _ => f end.
Definition animal (n : Node) : option Animal :=
  match n with mkNode _ _ _ a => a end.

(** [Node(const std::string& question)] *)
Definition Node_question (q : string) : Node := mkNode q None None None.
(** [Node(std::unique_ptr<Animal> animal)] *)
Definition Node_animal (a : option Animal) : Node := mkNode "" None None a.

(** [bool isLeaf() const { return animal != nullptr; }] *)
Definition isLeaf (n : Node) : bool :=
  match animal n with Some _ => true | None => false end.

(** Field assignments. *)
Definition set_question (q : string) (n : Node) : Node :=
  mkNode q (yes n) (no n) (animal n).
Definition set_yes (y : option Node) (n : Node) : Node :=
  mkNode (question n) y (no n) (animal n).
Definition set_no (f : option Node) (n : Node) : Node :=
  mkNode (question n) (yes n) f (animal n).
Definition set_animal (a : option Animal) (n : Node) : Node :=
  mkNode (question n) (yes n) (no n) a.

(** Induction over the ownership tree. *)
Section Node_induction.
Variable P : Node → Prop.

Definition on_child (o : option Node) : Prop :=
  match o with Some c => P c | None => True end.

Hypothesis step : ∀ q y f a, on_child y → on_child f → P (mkNode q y f a).

Fixpoint Node_tree_ind (t : Node) : P t :=
  match t with
  | mkNode q y f a =>
      step q y f a
        (match y return on_child y with
         | Some c => Node_tree_ind c | None => I end)
        (match f return on_child f with
         | Some c => Node_tree_ind c | None => I end)
  end.
End Node_induction.

(** [class AnimalTree { std::unique_ptr<Node> root; ... }] *)
Record AnimalTree : Type := mkTree { root : option Node }.

(** ** Pointers into trees *)

(** The branch taken at a question node: [true] is [yes], [false] is [no]. *)
Definition branch (b : bool) (n : Node) : option Node :=
  if b then yes n else no n.

(** The node reached from [n] along a sequence of branches. *)
Fixpoint subtree (n : Node) (p : list bool) {struct p} : option Node :=
  match p with
  | [] => Some n
  | b :: p' =>
      match branch b n with
      | Some c => subtree c p'
      | None => None
      end
  end.

(** Assignment through a pointer: the node at the end of [p] becomes [f] of
    itself, everything else is untouched. *)
Fixpoint update (n : Node) (p : list bool) (f : Node → Node) {struct p}
  : option Node :=
  match p with
  | [] => Some (f n)
  | b :: p' =>
      match branch b n with
      | Some c =>
          match update c p' f with
          | Some c' => Some (if b then set_yes (Some c') n else set_no (Some c') n)
          | None => None
          end
      | None => None
      end
  end.

(** A [Node*]: the tree instance that owns the node and its position. *)
Record NodePtr : Type := mkPtr { owner : nat; path : list bool }.

(** [p->yes.get()] and [p->no.get()] *)
Definition child (b : bool) (p : NodePtr) : NodePtr :=
  mkPtr (owner p) (path p ++ [b]).

(** The tree instances alive in the process. *)
Abbreviation Memory := (list AnimalTree).

Definition deref (m : Memory) (p : NodePtr) : option Node :=
  match m !! owner p with
  | Some t =>
      match root t with
      | Some r => subtree r (path p)
      | None => None
      end
  | None => None
  end.

Definition assign (m : Memory) (p : NodePtr) (f : Node → Node) : option Memory :=
  match m !! owner p with
  | Some t =>
      match root t with
      | Some r =>
          match update r (path p) f with
          | Some r' => Some (<[owner p := mkTree (Some r')]> m)
          | None => None
          end
      | None => None
      end
  | None => None
  end.

(** ** The process state and the monad of the member functions *)

Record World : Type := mkWorld {
  mem : Memory;
  cin : list string;
  cout : list string
}.

Inductive Result (A : Type) : Type :=
  | Ok (a : A)
  | Fault
  | OutOfFuel.
Arguments Ok {A} a.
Arguments Fault {A}.
Arguments OutOfFuel {A}.

Definition Run (A : Type) : Type := World → Result (A * World).

Definition ret {A} (a : A) : Run A := λ w, Ok (a, w).

Definition bind {A B} (m : Run A) (k : A → Run B) : Run B :=
  λ w, match m w with
       | Ok (a, w') => k a w'
       | Fault => Fault
       | OutOfFuel => OutOfFuel
       end.

Declare Scope run_scope.
Delimit Scope run_scope with run.
Notation "x <- m ;; k" := (bind m (λ x, k))
  (at level 100, m at next level, right associativity) : run_scope.
Notation "m ;;; k" := (bind m (λ _, k))
  (at level 100, right associativity) : run_scope.
Open Scope run_scope.

Definition fault {A} : Run A := λ _, Fault.
Definition out_of_fuel {A} : Run A := λ _, OutOfFuel.

(** [std::cout << s] *)
Definition print (s : string) : Run unit :=
  λ w, Ok (tt, mkWorld (mem w) (cin w) (cout w ++ [s])).

(** [std::cin >> x] and [std::getline(std::cin, x)] into a fresh string. *)
Definition extract : Run string :=
  λ w, match cin w with
       | [] => Ok ("", w)
       | x :: rest => Ok (x, mkWorld (mem w) rest (cout w))
       end.

(** [std::cin.ignore()] drops the separator left behind by the previous
    extraction; separators are not part of the extraction list. *)
Definition ignore : Run unit := ret tt.

(** Reading through a pointer: [current->field]. *)
Definition load (p : NodePtr) : Run Node :=
  λ w, match deref (mem w) p with
       | Some n => Ok (n, w)
       | None => Fault
       end.

(** Writing through a pointer: the pointee becomes [f] of itself. *)
Definition modify (p : NodePtr) (f : Node → Node) : Run unit :=
  λ w, match assign (mem w) p f with
       | Some m' => Ok (tt, mkWorld m' (cin w) (cout w))
       | None => Fault
       end.

(** [a->getName()] through a possibly null [unique_ptr<Animal>] *)
Definition name_of (a : option Animal) : Run string :=
  match a with
  | Some x => ret (getName x)
  | None => fault
  end.

(** ** [class AnimalTree] *)

(** The tree built by [resetToInitialState]: the three statements
    [root = make_unique<Node>(...)], [root->yes = ...], [root->no = ...]. *)
Definition initial_root : Node :=
  set_no (Some (Node_animal (Some (DynamicAnimal "Snake"))))
    (set_yes (Some (Node_animal (Some (DynamicAnimal "Dog"))))
       (Node_question "Is your animal warm or cold blooded?")).

(** [void AnimalTree::resetToInitialState()]: the old root, whatever it was,
    is dropped together with everything it owns. *)
Definition resetToInitialState (this : nat) : Run unit :=
  λ w, Ok (tt, mkWorld (<[this := mkTree (Some initial_root)]> (mem w))
                       (cin w) (cout w)).

(** [AnimalTree() { resetToInitialState(); }]: a new instance, whose [root]
    starts out null, is reset at once.  The result is the new instance. *)
Definition AnimalTree_new : Run nat :=
  λ w, let this := length (mem w) in
       (resetToInitialState this ;;; ret this)
         (mkWorld (mem w ++ [mkTree None]) (cin w) (cout w)).

(** [Node* getRoot() const { return root.get(); }]: null exactly when the
    pointer designates nothing. *)
Definition getRoot (this : nat) : NodePtr := mkPtr this [].

(** [void collectAnimals(const Node* current, std::vector<std::string>&
    animals) const].  The null test of the source is made where the child
    pointer is read, which keeps the recursion structural; the equation the
    source is written in is [collectAnimals_unfold] below. *)
Fixpoint collectAnimals_node (n : Node) (animals : list string) : list string :=
  match n with
  | mkNode _ y f a =>
      match a with
      | Some x => animals ++ [getName x]
      | None =>
          let animals1 :=
            match y with
            | Some c => collectAnimals_node c animals
            | None => animals
            end in
          match f with
          | Some c => collectAnimals_node c animals1
          | None => animals1
          end
      end
  end.

Definition collectAnimals (current : option Node) (animals : list string)
  : list string :=
  match current with
  | None => animals
  | Some n => collectAnimals_node n animals
  end.

(** ** [class AnimalGame] *)

(** [answer == "yes"] *)
Definition is_yes (answer : string) : bool := String.eqb answer "yes".
Definition is_no (answer : string) : bool := String.eqb answer "no".

Definition reprompt : string := "Please answer 'yes' or 'no'.
".

(** [void learnNewAnimal(Node* current)] *)
Definition learnNewAnimal (current : NodePtr) : Run unit :=
  print "I give up! What is your animal? " ;;;
  ignore ;;;
  newAnimalName <- extract ;;
  cur <- load current ;;
  oldName <- name_of (animal cur) ;;
  print ("What question distinguishes a " +:+ newAnimalName +:+ " from a "
           +:+ oldName +:+ "?
") ;;;
  newQuestion <- extract ;;
  print ("For a " +:+ newAnimalName
           +:+ ", what is the answer to that question? (yes/no): ") ;;;
  answer <- extract ;;
  let newAnimalNode := Node_animal (Some (DynamicAnimal newAnimalName)) in
  cur <- load current ;;
  let oldAnimalNode := Node_animal (animal cur) in
  modify current (set_animal None) ;;;
  modify current (set_question newQuestion) ;;;
  (if is_yes answer then
     modify current (set_yes (Some newAnimalNode)) ;;;
     modify current (set_no (Some oldAnimalNode))
   else
     modify current (set_yes (Some oldAnimalNode)) ;;;
     modify current (set_no (Some newAnimalNode))) ;;;
  print "Got it! I'll remember that for next time.
".

(** One pass through the body of the [while] loop of [askQuestions], entered
    with [current] at a node that is not a leaf: the next value of [current]. *)
Definition askQuestions_body (current : NodePtr) : Run NodePtr :=
  cur <- load current ;;
  print (question cur +:+ " (yes/no): ") ;;;
  answer <- extract ;;
  if is_yes answer then ret (child true current)
  else if is_no answer then ret (child false current)
  else print reprompt ;;; ret current.

(** [while (!current->isLeaf()) { ... }]: the pointer the loop ends with. *)
Fixpoint askQuestions_loop (fuel : nat) (current : NodePtr) : Run NodePtr :=
  match fuel with
  | O => out_of_fuel
  | S fuel' =>
      cur <- load current ;;
      if isLeaf cur then ret current
      else next <- askQuestions_body current ;; askQuestions_loop fuel' next
  end.

(** What [askQuestions] does once the loop has ended at [current]. *)
Definition askQuestions_guess (current : NodePtr) : Run unit :=
  cur <- load current ;;
  guess <- name_of (animal cur) ;;
  print ("Is it a " +:+ guess +:+ "? (yes/no): ") ;;;
  answer <- extract ;;
  if is_yes answer then print "Yay! I guessed it right!
"
  else if is_no answer then learnNewAnimal current
  else print reprompt.

(** [void askQuestions(Node* current)] *)
Definition askQuestions (fuel : nat) (current : NodePtr) : Run unit :=
  leaf <- askQuestions_loop fuel current ;;
  askQuestions_guess leaf.

(** [void listAnimals() const] of the game whose tree is [this] *)
Definition listAnimals (this : nat) : Run unit :=
  λ w, let animals := collectAnimals (deref (mem w) (getRoot this)) [] in
       (print "Animals currently in memory:
" ;;;
        foldr (λ a k, print ("- " +:+ a +:+ "
") ;;; k) (ret tt) animals) w.

(** One round of [play()]: [askQuestions(tree.getRoot())]. *)
Definition play_round (fuel : nat) (this : nat) : Run unit :=
  askQuestions fuel (getRoot this).

(** ** Vocabulary of the properties *)

(** A freshly made leaf: [make_unique<Node>(make_unique<DynamicAnimal>(x))]. *)
Definition leaf (x : string) : Node := Node_animal (Some (DynamicAnimal x)).

(** The initial tree after the game has been taught, at its Dog leaf, the
    animal "Cat" with the question "Does it bark?" answered "no" (the
    scenario of the specification). *)
Definition taught_root : Node :=
  mkNode "Is your animal warm or cold blooded?"
    (Some (mkNode "Does it bark?" (Some (leaf "Dog")) (Some (leaf "Cat")) None))
    (Some (leaf "Snake")) None.

(** The two shapes a node has in a tree of the game: a leaf carries an animal
    and owns nothing, a question node carries no animal and owns both
    children. *)
Fixpoint well_formed (n : Node) : bool :=
  match n with
  | mkNode _ y f a =>
      match a, y, f with
      | Some _, None, None => true
      | None, Some cy, Some cf => well_formed cy && well_formed cf
      | _, _, _ => false
      end
  end.

(** The leaf labels in depth-first order, [yes] branch before [no] branch:
    at a leaf its label, at a question node the labels under [yes] followed
    by the labels under [no]. *)
Fixpoint labels (n : Node) : list string :=
  match n with
  | mkNode _ y f a =>
      match a with
      | Some x => [getName x]
      | None =>
          match y with Some c => labels c | None => [] end
          ++ match f with Some c => labels c | None => [] end
      end
  end.

(** Numbers of nodes owned by (and including) [n]. *)
Fixpoint node_count (n : Node) : nat :=
  match n with
  | mkNode _ y f _ =>
      S (match y with Some c => node_count c | None => 0 end
         + match f with Some c => node_count c | None => 0 end)
  end.

Fixpoint leaf_count (n : Node) : nat :=
  match n with
  | mkNode _ y f a =>
      match a with Some _ => 1 | None => 0 end
      + (match y with Some c => leaf_count c | None => 0 end
         + match f with Some c => leaf_count c | None => 0 end)
  end.

Fixpoint question_count (n : Node) : nat :=
  match n with
  | mkNode _ y f a =>
      match a with Some _ => 0 | None => 1 end
      + (match y with Some c => question_count c | None => 0 end
         + match f with Some c => question_count c | None => 0 end)
  end.

(** The four assignments [learnNewAnimal] makes to [*current], composed. *)
Definition grow (newAnimalName newQuestion answer : string) (cur : Node) : Node :=
  let newAnimalNode := Node_animal (Some (DynamicAnimal newAnimalName)) in
  let oldAnimalNode := Node_animal (animal cur) in
  let cur' := set_question newQuestion (set_animal None cur) in
  if is_yes answer
  then set_no (Some oldAnimalNode) (set_yes (Some newAnimalNode) cur')
  else set_no (Some newAnimalNode) (set_yes (Some oldAnimalNode) cur').

(** The text [learnNewAnimal] writes. *)
Definition learn_output (newAnimalName oldName : string) : list string :=
  [ "I give up! What is your animal? ";
    "What question distinguishes a " +:+ newAnimalName +:+ " from a "
      +:+ oldName +:+ "?
";
    "For a " +:+ newAnimalName
      +:+ ", what is the answer to that question? (yes/no): ";
    "Got it! I'll remember that for next time.
" ].

(** The [i]-th value still to be extracted from [std::cin]. *)
Definition upcoming (i : nat) (inp : list string) : string :=
  default "" (inp !! i).

(** The answer that takes a branch. *)
Definition answer_of (b : bool) : string := if b then "yes" else "no".

(** The values [current] takes while the loop of [askQuestions] runs, in
    order, starting with the initial one. *)
Fixpoint visited (fuel : nat) (current : NodePtr) (w : World) : list NodePtr :=
  current ::
  match fuel with
  | O => []
  | S fuel' =>
      match load current w with
      | Ok (cur, _) =>
          if isLeaf cur then []
          else match askQuestions_body current w with
               | Ok (next, w') => visited fuel' next w'
               | _ => []
               end
      | _ => []
      end
  end.

(** The next pointer and the text written by one pass through the loop. *)
Definition next_of (answer : string) (current : NodePtr) : NodePtr :=
  if is_yes answer then child true current
  else if is_no answer then child false current
  else current.

Definition body_output (answer : string) (cur : Node) : list string :=
  (question cur +:+ " (yes/no): ")
    :: (if is_yes answer then [] else if is_no answer then [] else [reprompt]).

(** [p] designates a leaf of the tree instance [this]. *)
Definition live_leaf (w : World) (this : nat) (p : NodePtr) : Prop :=
  owner p = this ∧ ∃ n, deref (mem w) p = Some n ∧ isLeaf n = true.

(** The operations a process performs on its trees. *)
Inductive Op : Type :=
  | OpNew
  | OpReset (this : nat)
  | OpLearn (current : NodePtr)
  | OpRound (fuel : nat) (this : nat)
  | OpList (this : nat).

Definition run_op (o : Op) : Run unit :=
  match o with
  | OpNew => AnimalTree_new ;;; ret tt
  | OpReset this => resetToInitialState this
  | OpLearn current => learnNewAnimal current
  | OpRound fuel this => play_round fuel this
  | OpList this => listAnimals this
  end.

(** The states of a process: it starts without any tree, performs
    operations that complete, and is fed input. *)
Inductive reachable : World → Prop :=
  | reachable_start inp out : reachable (mkWorld [] inp out)
  | reachable_op w o w' :
      reachable w → run_op o w = Ok (tt, w') → reachable w'
  | reachable_input w inp :
      reachable w → reachable (mkWorld (mem w) inp (cout w)).

(** Every tree instance has a root and is well formed. *)
Definition trees_ok (m : Memory) : Prop :=
  ∀ this t, m !! this = Some t → ∃ r, root t = Some r ∧ well_formed r = true.

(** ** The menu and the game loop *)

(** How a function that can end the process comes out: it returns, the
    process exits ([std::exit]), the behaviour is undefined, or the fuel is
    used up. *)
Inductive Outcome (A : Type) : Type :=
  | Returned (a : A) (w : World)
  | Exited (status : Z) (w : World)
  | Crashed
  | Unfinished.
Arguments Returned {A} a w.
Arguments Exited {A} status w.
Arguments Crashed {A}.
Arguments Unfinished {A}.

Definition Proc (A : Type) : Type := World → Outcome A.

Definition lift {A} (m : Run A) : Proc A :=
  λ w, match m w with
       | Ok (a, w') => Returned a w'
       | Fault => Crashed
       | OutOfFuel => Unfinished
       end.

Definition andthen {A B} (m : Proc A) (k : A → Proc B) : Proc B :=
  λ w, match m w with
       | Returned a w' => k a w'
       | Exited status w' => Exited status w'
       | Crashed => Crashed
       | Unfinished => Unfinished
       end.

Declare Scope proc_scope.
Delimit Scope proc_scope with proc.
Notation "x <- m ;; k" := (andthen m (λ x, k))
  (at level 100, m at next level, right associativity) : proc_scope.
Notation "m ;;; k" := (andthen m (λ _, k))
  (at level 100, right associativity) : proc_scope.

(** The value of a decimal digit. *)
Definition digit_value (c : Ascii.ascii) : option Z :=
  let n := Ascii.nat_of_ascii c in
  if (48 <=? n)%nat && (n <=? 57)%nat then Some (Z.of_nat (n - 48)) else None.

(** The digits at the front of [s], accumulated onto [acc], and what follows
    them. *)
Fixpoint scan_digits (s : string) (acc : Z) : Z * string :=
  match s with
  | EmptyString => (acc, EmptyString)
  | String c s' =>
      match digit_value c with
      | Some d => scan_digits s' (10 * acc + d)%Z
      | None => (acc, s)
      end
  end.

(** What [std::cin >> choice] makes of a token, the stream being in its
    default decimal mode: an optional sign and at least one digit are
    converted, the rest of the token stays in the stream; a token that
    does not start like that is a failed conversion. *)
Definition scan_int (tok : string) : option (Z * string) :=
  let '(negative, body) :=
    match tok with
    | String "-"%char s => (true, s)
    | String "+"%char s => (false, s)
    | _ => (false, tok)
    end in
  match body with
  | String c _ =>
      match digit_value c with
      | Some _ =>
          let '(v, rest) := scan_digits body 0 in
          Some (if negative then (- v)%Z else v, rest)
      | None => None
      end
  | EmptyString => None
  end.

Definition INT_MIN : Z := (- 2 ^ 31)%Z.
Definition INT_MAX : Z := (2 ^ 31 - 1)%Z.

(** What is left of a token goes back in front of the input. *)
Definition unread (rest : string) (inp : list string) : list string :=
  match rest with
  | EmptyString => inp
  | _ => rest :: inp
  end.

(** [std::cin >> choice] for an [int choice] whose value so far is [old]
    ([None]: not initialised).  On an exhausted stream nothing is stored.
    A failed conversion stores zero, a value out of the range of [int] the
    nearest bound; both put the stream in its failed state, in which every
    later extraction fails, exactly as on an exhausted stream: the input
    left is dropped. *)
Definition extract_int (old : option Z) : Run (option Z) :=
  λ w, match cin w with
       | [] => Ok (old, w)
       | tok :: inp =>
           match scan_int tok with
           | Some (v, rest) =>
               if (v <? INT_MIN)%Z
               then Ok (Some INT_MIN, mkWorld (mem w) [] (cout w))
               else if (INT_MAX <? v)%Z
               then Ok (Some INT_MAX, mkWorld (mem w) [] (cout w))
               else Ok (Some v, mkWorld (mem w) (unread rest inp) (cout w))
           | None => Ok (Some 0%Z, mkWorld (mem w) [] (cout w))
           end
       end.

(** The text of the menu, one entry per output statement. *)
Definition menu_text : list string :=
  [ "What would you like to do next?
"; "1. Play again
"; "2. Reset memory and play again
"; "3. List all animals
"; "4. Quit
"; "Enter your choice (1/2/3/4): " ].

(** The [switch (choice)] of [promptAfterRound], [again] being the call of
    [promptAfterRound()] in its third and its default case.  Reading the
    [int choice] that no extraction has written is undefined behaviour. *)
Definition menu_switch (this : nat) (again : Proc unit) (choice : option Z)
  : Proc unit :=
  match choice with
  | None => λ _, Crashed
  | Some 1%Z => Returned tt
  | Some 2%Z =>
      lift (resetToInitialState this ;;;
            print "Game has been reset to initial state.
")%run
  | Some 3%Z => (lift (listAnimals this) ;;; again)%proc
  | Some 4%Z => Exited 0%Z
  | Some _ =>
      (lift (print "Invalid choice. Please try again.
") ;;; again)%proc
  end.

(** [void promptAfterRound()] of the game whose tree is [this]; the fuel
    bounds the depth of its recursion. *)
Fixpoint promptAfterRound (fuel : nat) (this : nat) : Proc unit :=
  match fuel with
  | O => λ _, Unfinished
  | S fuel' =>
      (choice <- lift (foldr (λ s k, print s ;;; k)%run (extract_int None)
                         menu_text) ;;
       menu_switch this (promptAfterRound fuel' this) choice)%proc
  end.

(** The loop of [play()]: [while (true) { askQuestions(tree.getRoot());
    promptAfterRound(); }], [rounds] times around at most. *)
Fixpoint play_loop (fuel rounds : nat) (this : nat) : Proc unit :=
  match rounds with
  | O => λ _, Unfinished
  | S rounds' =>
      (lift (play_round fuel this) ;;;
       promptAfterRound fuel this ;;;
       play_loop fuel rounds' this)%proc
  end.

(** [void play()] *)
Definition play (fuel : nat) (this : nat) : Proc unit :=
  (lift (print "Welcome to The Animal Game!
") ;;;
   play_loop fuel fuel this)%proc.

(** [int main()]: [AnimalGame game; game.play(); return 0;] *)
Definition main (fuel : nat) : Proc Z :=
  (game <- lift AnimalTree_new ;;
   play fuel game ;;;
   Returned 0%Z)%proc.

(** ** Properties of the tree functions *)

Lemma isLeaf_leaf x : isLeaf (leaf x) = true.
Proof. reflexivity. Qed.

Lemma well_formed_initial : well_formed initial_root = true.
Proof. reflexivity. Qed.

Lemma well_formed_cases n :
  well_formed n = true →
  (∃ q a, n = mkNode q None None (Some a))
  ∨ (∃ q y f, n = mkNode q (Some y) (Some f) None
              ∧ well_formed y = true ∧ well_formed f = true).
Proof.
  destruct n as [q [y|] [f|] [a|]]; simpl; try discriminate.
  - intros [??]%andb_true_iff. right. by exists q, y, f.
  - intros _. left. by exists q, a.
Qed.

Lemma well_formed_subtree p : ∀ r n,
  well_formed r = true → subtree r p = Some n → well_formed n = true.
Proof.
  induction p as [|b p IH]; intros r n Hr Hs; simpl in Hs.
  - by simplify_eq.
  - destruct (well_formed_cases r Hr) as [(q & a & ->)|(q & y & f & -> & Hy & Hf)].
    + destruct b; simpl in Hs; discriminate.
    + destruct b; simpl in Hs; eauto.
Qed.

(** The source's form of [collectAnimals]. *)
Lemma collectAnimals_unfold n animals :
  collectAnimals (Some n) animals =
    match animal n with
    | Some a => animals ++ [getName a]
    | None => collectAnimals (no n) (collectAnimals (yes n) animals)
    end.
Proof. by destruct n as [q [y|] [f|] [a|]]. Qed.

Lemma collectAnimals_labels n : ∀ animals,
  collectAnimals (Some n) animals = animals ++ labels n.
Proof.
  induction n as [q y f a IHy IHf] using Node_tree_ind; intros animals.
  simpl. destruct a as [a|]; [done|].
  destruct y as [y|], f as [f|]; simpl in *;
    rewrite ?IHf, ?IHy, ?app_nil_r, ?app_assoc; done.
Qed.

Lemma node_count_split n : node_count n = leaf_count n + question_count n.
Proof.
  induction n as [q y f a IHy IHf] using Node_tree_ind.
  simpl. destruct a, y as [y|], f as [f|]; simpl in *; lia.
Qed.

(** ** Reading and writing through a path *)

Lemma branch_set b c n :
  branch b (if b then set_yes (Some c) n else set_no (Some c) n) = Some c.
Proof. by destruct b, n. Qed.

Lemma subtree_app p1 : ∀ r p2,
  subtree r (p1 ++ p2) = subtree r p1 ≫= λ n, subtree n p2.
Proof.
  induction p1 as [|b p1 IH]; intros r p2; simpl; [done|].
  destruct (branch b r); [apply IH | done].
Qed.

Lemma update_subtree p f : ∀ r n,
  subtree r p = Some n →
  ∃ r', update r p f = Some r' ∧ subtree r' p = Some (f n).
Proof.
  induction p as [|b p IH]; intros r n Hs; simpl in *.
  - simplify_eq. eauto.
  - destruct (branch b r) as [c|] eqn:Hb; [|done].
    destruct (IH c n Hs) as (c' & -> & Hc').
    eexists; split; [done|]. by rewrite branch_set.
Qed.

Lemma update_None p f : ∀ r, subtree r p = None → update r p f = None.
Proof.
  induction p as [|b p IH]; intros r Hs; simpl in *; [done|].
  destruct (branch b r) as [c|]; [|done]. by rewrite (IH c Hs).
Qed.

Lemma update_update p f g : ∀ r r',
  update r p f = Some r' → update r' p g = update r p (λ n, g (f n)).
Proof.
  induction p as [|b p IH]; intros r r' Hu; simpl in *.
  - by simplify_eq.
  - destruct (branch b r) as [c|] eqn:Hb; [|done].
    destruct (update c p f) as [c'|] eqn:Hc; [|done]. simplify_eq.
    rewrite branch_set, (IH c c' Hc).
    destruct (update c p (λ n, g (f n))); [|done].
    by destruct b, r.
Qed.

(** What a write at a leaf position does to the measures of a well-formed
    tree. *)
Lemma update_measures p f : ∀ r r' n,
  well_formed r = true → subtree r p = Some n → update r p f = Some r' →
  (well_formed (f n) = true → well_formed r' = true)
  ∧ labels r' ++ labels n ≡ₚ labels r ++ labels (f n)
  ∧ leaf_count r' + leaf_count n = leaf_count r + leaf_count (f n)
  ∧ question_count r' + question_count n
      = question_count r + question_count (f n).
Proof.
  induction p as [|b p IH]; intros r r' n Hr Hs Hu; simpl in *.
  - simplify_eq. split_and!; [done| |lia..]. apply Permutation_app_comm.
  - destruct (well_formed_cases r Hr) as [(q & a & ->)|(q & y & f0 & -> & Hy & Hf)];
      [destruct b; simpl in Hs; discriminate|].
    destruct b; simpl in Hs, Hu.
    + destruct (update y p f) as [y'|] eqn:Hy'; [|done]. simplify_eq.
      destruct (IH y y' n Hy Hs Hy') as (Hwf & Hl & Hlc & Hqc).
      simpl. split_and!; [intros H; by rewrite (Hwf H), Hf| |lia..].
      rewrite <-!(assoc_L (++)), (comm (++) (labels f0) (labels n)).
      rewrite (comm (++) (labels f0) (labels (f n))).
      by rewrite !(assoc_L (++)), Hl.
    + destruct (update f0 p f) as [f'|] eqn:Hf'; [|done]. simplify_eq.
      destruct (IH f0 f' n Hf Hs Hf') as (Hwf & Hl & Hlc & Hqc).
      simpl. split_and!; [intros H; by rewrite (Hwf H), Hy| |lia..].
      by rewrite <-!(assoc_L (++)), Hl.
Qed.

(** A write that keeps the children of the written node keeps every node. *)
Lemma update_keeps p f : ∀ r r',
  update r p f = Some r' →
  (∀ n b, subtree r p = Some n → branch b n = None) →
  ∀ p', is_Some (subtree r p') → is_Some (subtree r' p').
Proof.
  induction p as [|b p IH]; intros r r' Hu Hn p' Hp'; simpl in *.
  - simplify_eq. destruct p' as [|b' p']; simpl in *; [done|].
    by rewrite (Hn r b' eq_refl) in Hp'.
  - destruct (branch b r) as [c|] eqn:Hb; [|done].
    destruct (update c p f) as [c'|] eqn:Hc; [|done]. simplify_eq.
    destruct p' as [|b' p']; simpl in *; [done|].
    destruct (decide (b' = b)) as [->|Hne].
    + rewrite branch_set. rewrite Hb in Hp'. by apply (IH c c').
    + replace (branch b' (if b then set_yes (Some c') r else set_no (Some c') r))
        with (branch b' r); [done|].
      by destruct b, b', r.
Qed.

(** ** Reading and writing through a pointer *)

Lemma deref_root m p n :
  deref m p = Some n →
  ∃ r, m !! owner p = Some (mkTree (Some r)) ∧ subtree r (path p) = Some n.
Proof.
  unfold deref. destruct (m !! owner p) as [[[r|]]|]; [|done..].
  intros Hs. by exists r.
Qed.

Lemma root_deref m i p r :
  m !! i = Some (mkTree (Some r)) → deref m (mkPtr i p) = subtree r p.
Proof. unfold deref. simpl. by intros ->. Qed.

Lemma deref_child m p b n :
  deref m p = Some n → deref m (child b p) = branch b n.
Proof.
  intros (r & Hr & Hs)%deref_root. unfold deref. simpl. rewrite Hr. simpl.
  rewrite subtree_app, Hs. simpl. by destruct (branch b n).
Qed.

Lemma modify_at w i p f r n :
  mem w !! i = Some (mkTree (Some r)) → subtree r p = Some n →
  ∃ r', update r p f = Some r' ∧ subtree r' p = Some (f n)
    ∧ modify (mkPtr i p) f w
      = Ok (tt, mkWorld (<[i := mkTree (Some r')]> (mem w)) (cin w) (cout w)).
Proof.
  intros Hi Hs. destruct (update_subtree p f r n Hs) as (r' & Hu & Hs').
  exists r'. split_and!; [done..|].
  unfold modify, assign. simpl. by rewrite Hi; simpl; rewrite Hu.
Qed.

Lemma extract_run w :
  extract w = Ok (upcoming 0 (cin w), mkWorld (mem w) (drop 1 (cin w)) (cout w)).
Proof. by destruct w as [m [|x inp] out]. Qed.

Lemma upcoming_drop k i inp : upcoming i (drop k inp) = upcoming (k + i) inp.
Proof. unfold upcoming. by rewrite lookup_drop. Qed.

Lemma bind_ok {A B} (m : Run A) (k : A → Run B) w a w' :
  m w = Ok (a, w') → bind m k w = k a w'.
Proof. unfold bind. by intros ->. Qed.

Lemma bind_assoc {A B C} (m : Run A) (f : A → Run B) (g : B → Run C) w :
  bind (bind m f) g w = bind m (λ x, bind (f x) g) w.
Proof. unfold bind. by destruct (m w) as [[??]| |]. Qed.

Lemma print_run s w :
  print s w = Ok (tt, mkWorld (mem w) (cin w) (cout w ++ [s])).
Proof. done. Qed.

(** One completed statement at the head of the goal. *)
Ltac run_step :=
  erewrite bind_ok;
    [|first [apply print_run | apply extract_run | reflexivity]].

Lemma update_ext p f g : ∀ r n,
  subtree r p = Some n → f n = g n → update r p f = update r p g.
Proof.
  induction p as [|b p IH]; intros r n Hs Hfg; simpl in *.
  - simplify_eq. by f_equal.
  - destruct (branch b r) as [c|]; [|done]. by rewrite (IH c n Hs Hfg).
Qed.

Lemma modify_step {A} w i p f r r' (k : unit → Run A) :
  mem w !! i = Some (mkTree (Some r)) → update r p f = Some r' →
  bind (modify (mkPtr i p) f) k w
  = k tt (mkWorld (<[i := mkTree (Some r')]> (mem w)) (cin w) (cout w)).
Proof.
  intros Hi Hu. unfold bind, modify, assign. simpl. by rewrite Hi; simpl; rewrite Hu.
Qed.

(** One write through [mkPtr i p] at the head of the goal, given what the
    writes so far amount to ([Hu]) and what they left at [p] ([Hs]). *)
Ltac write_step Hu Hs :=
  lazymatch goal with
  | |- bind (modify (mkPtr ?i ?p) ?f) _ _ = _ =>
      let r' := fresh "r" in
      let Hu' := fresh "Hu" in
      let Hs' := fresh "Hs" in
      destruct (update_subtree p f _ _ Hs) as (r' & Hu' & Hs');
      erewrite (modify_step _ i p f _ r');
        [|by apply list_lookup_insert_eq|done];
      cbn [mem cin cout]; rewrite list_insert_insert_eq;
      rewrite (update_update _ _ _ _ _ Hu) in Hu';
      clear Hu Hs; rename Hu' into Hu; rename Hs' into Hs
  end.

(** The writes of [learnNewAnimal], from the first move to the last
    assignment, amount to one write of [grow]. *)
Lemma learn_writes {A} (k : Run A) w i p r cur name q ans :
  mem w !! i = Some (mkTree (Some r)) → subtree r p = Some cur →
  ∃ r', update r p (grow name q ans) = Some r'
    ∧ (modify (mkPtr i p) (set_animal None) ;;;
       modify (mkPtr i p) (set_question q) ;;;
       (if is_yes ans then
          modify (mkPtr i p) (set_yes (Some (Node_animal (Some (DynamicAnimal name))))) ;;;
          modify (mkPtr i p) (set_no (Some (Node_animal (animal cur))))
        else
          modify (mkPtr i p) (set_yes (Some (Node_animal (animal cur)))) ;;;
          modify (mkPtr i p) (set_no (Some (Node_animal (Some (DynamicAnimal name)))))) ;;;
       k) w
      = k (mkWorld (<[i := mkTree (Some r')]> (mem w)) (cin w) (cout w)).
Proof.
  intros Hi Hs.
  assert (Hlt : i < length (mem w)) by by eapply lookup_lt_Some.
  destruct (update_subtree p (grow name q ans) r cur Hs) as (r' & Hgrow & _).
  exists r'. split; [done|].
  destruct (update_subtree p (set_animal None) r cur Hs) as (r1 & Hu & Hs1).
  erewrite (modify_step w i p _ r r1); [|done..].
  write_step Hu Hs1.
  revert Hgrow. unfold grow.
  destruct (is_yes ans); intros Hgrow; rewrite bind_assoc;
    write_step Hu Hs1; write_step Hu Hs1;
    (match type of Hu with
     | _ = Some ?x => assert (Some r' = Some x) as [= ->]; [|done]
     end);
    rewrite <-Hgrow, <-Hu; by apply (update_ext p _ _ r cur).
Qed.

Lemma learnNewAnimal_run w i p r cur a :
  mem w !! i = Some (mkTree (Some r)) → subtree r p = Some cur →
  animal cur = Some a →
  ∃ r', update r p (grow (upcoming 0 (cin w)) (upcoming 1 (cin w))
                         (upcoming 2 (cin w))) = Some r'
    ∧ learnNewAnimal (mkPtr i p) w
      = Ok (tt, mkWorld (<[i := mkTree (Some r')]> (mem w)) (drop 3 (cin w))
                  (cout w ++ learn_output (upcoming 0 (cin w)) (getName a))).
Proof.
  intros Hi Hs Ha. destruct w as [m inp out]. cbn [mem cin cout] in *.
  unfold learnNewAnimal.
  assert (Hload : ∀ inp' out',
            load (mkPtr i p) (mkWorld m inp' out') = Ok (cur, mkWorld m inp' out')).
  { intros inp' out'. unfold load. cbn [mem].
    by rewrite (root_deref _ _ _ _ Hi), Hs. }
  do 3 run_step. erewrite bind_ok; [|apply Hload].
  rewrite Ha. do 5 run_step. erewrite bind_ok; [|apply Hload].
  cbn [mem cin cout]. rewrite !upcoming_drop, !drop_drop. cbn [Nat.add].
  match goal with
  | |- context [bind _ _ ?w0] =>
      destruct (learn_writes (print "Got it! I'll remember that for next time.
") w0 i p r cur (upcoming 0 inp) (upcoming 1 inp) (upcoming 2 inp) Hi Hs)
        as (r' & Hu & ->)
  end.
  exists r'. split; [done|]. rewrite print_run. cbn [mem cin cout].
  unfold learn_output. by rewrite <-!(assoc_L (++)).
Qed.

Lemma learnNewAnimal_fault w current :
  (∀ n, deref (mem w) current = Some n → animal n = None) →
  learnNewAnimal current w = Fault.
Proof.
  intros Hn. unfold learnNewAnimal.
  do 3 run_step.
  unfold bind at 1, load. cbn [mem].
  destruct (deref (mem w) current) as [n|] eqn:Hd; [|done].
  by rewrite (Hn n eq_refl).
Qed.

Lemma learnNewAnimal_inv w current w' :
  learnNewAnimal current w = Ok (tt, w') →
  ∃ r cur a r',
    mem w !! owner current = Some (mkTree (Some r))
    ∧ subtree r (path current) = Some cur ∧ animal cur = Some a
    ∧ update r (path current)
        (grow (upcoming 0 (cin w)) (upcoming 1 (cin w)) (upcoming 2 (cin w)))
      = Some r'
    ∧ w' = mkWorld (<[owner current := mkTree (Some r')]> (mem w))
                   (drop 3 (cin w))
                   (cout w ++ learn_output (upcoming 0 (cin w)) (getName a)).
Proof.
  intros Hrun.
  destruct (deref (mem w) current) as [cur|] eqn:Hd;
    [|by rewrite learnNewAnimal_fault in Hrun; [|intros n; rewrite Hd]].
  destruct (animal cur) as [a|] eqn:Ha;
    [|rewrite learnNewAnimal_fault in Hrun; [done|intros n; rewrite Hd; congruence]].
  destruct (deref_root _ _ _ Hd) as (r & Hi & Hs).
  destruct current as [i p]. cbn [owner path] in *.
  destruct (learnNewAnimal_run w i p r cur a Hi Hs Ha) as (r' & Hu & Hrun').
  rewrite Hrun' in Hrun. exists r, cur, a, r'. by simplify_eq.
Qed.

Lemma grow_yes name q ans cur a :
  animal cur = Some a → is_yes ans = true →
  grow name q ans cur = mkNode q (Some (leaf name)) (Some (Node_animal (Some a))) None.
Proof. unfold grow. intros Ha ->. destruct cur. simpl in *. by subst. Qed.

Lemma grow_not_yes name q ans cur a :
  animal cur = Some a → is_yes ans = false →
  grow name q ans cur = mkNode q (Some (Node_animal (Some a))) (Some (leaf name)) None.
Proof. unfold grow. intros Ha ->. destruct cur. simpl in *. by subst. Qed.

(** What a write of [grow] at a leaf does to a well-formed tree. *)
Lemma grow_measures p name q ans r cur a r' :
  well_formed r = true → subtree r p = Some cur → animal cur = Some a →
  update r p (grow name q ans) = Some r' →
  well_formed r' = true
  ∧ labels r' ≡ₚ name :: labels r
  ∧ leaf_count r' = leaf_count r + 1
  ∧ question_count r' = question_count r + 1
  ∧ node_count r' = node_count r + 2
  ∧ ∀ p', is_Some (subtree r p') → is_Some (subtree r' p').
Proof.
  intros Hr Hs Ha Hu.
  pose proof (well_formed_subtree p r cur Hr Hs) as Hcur.
  destruct (well_formed_cases cur Hcur) as [(q0 & a0 & ->)|(q0 & y & f & -> & _)];
    [|done]. simpl in Ha. simplify_eq.
  destruct (update_measures p _ r r' _ Hr Hs Hu) as (Hwf & Hl & Hlc & Hqc).
  assert (Hnc := node_count_split r). assert (Hnc' := node_count_split r').
  destruct (is_yes ans) eqn:Hans;
    [rewrite (grow_yes name q ans (mkNode q0 None None (Some a)) a eq_refl Hans) in *
    |rewrite (grow_not_yes name q ans (mkNode q0 None None (Some a)) a eq_refl Hans) in *];
    simpl in *.
  - split_and!; [by apply Hwf| |lia..|].
    + apply (inj (.++ [getName a])). rewrite Hl. simpl.
      symmetry. apply Permutation_middle.
    + apply (update_keeps p _ r r' Hu). intros n b Hn. simplify_eq. by destruct b.
  - split_and!; [by apply Hwf| |lia..|].
    + apply (inj (.++ [getName a])). rewrite Hl. simpl.
      rewrite (cons_middle (getName a) (labels r) [name]), (assoc_L (++)).
      symmetry. apply Permutation_cons_append.
    + apply (update_keeps p _ r r' Hu). intros n b Hn. simplify_eq. by destruct b.
Qed.

(** [learnNewAnimal] at a leaf of a well-formed tree, in full. *)
Lemma learn_at_leaf w current r old a :
  mem w !! owner current = Some (mkTree (Some r)) →
  well_formed r = true →
  subtree r (path current) = Some old → animal old = Some a →
  let name := upcoming 0 (cin w) in
  let q := upcoming 1 (cin w) in
  let ans := upcoming 2 (cin w) in
  ∃ r' w',
    learnNewAnimal current w = Ok (tt, w')
    ∧ w' = mkWorld (<[owner current := mkTree (Some r')]> (mem w))
                   (drop 3 (cin w))
                   (cout w ++ learn_output name (getName a))
    ∧ update r (path current) (grow name q ans) = Some r'
    ∧ deref (mem w') (getRoot (owner current)) = Some r'
    ∧ deref (mem w') current = Some (grow name q ans old)
    ∧ well_formed r' = true
    ∧ labels r' ≡ₚ name :: labels r
    ∧ leaf_count r' = leaf_count r + 1
    ∧ question_count r' = question_count r + 1
    ∧ node_count r' = node_count r + 2
    ∧ ∀ p', is_Some (subtree r p') → is_Some (subtree r' p').
Proof.
  intros Hi Hr Hs Ha name q ans. destruct current as [i p]. cbn [owner path] in *.
  destruct (learnNewAnimal_run w i p r old a Hi Hs Ha) as (r' & Hu & Hrun).
  destruct (update_subtree p (grow name q ans) r old Hs) as (r'' & Hu' & Hs').
  assert (r'' = r') as -> by (unfold name, q, ans in Hu'; congruence).
  assert (Hlt : i < length (mem w)) by by eapply lookup_lt_Some.
  eexists r', _. split; [exact Hrun|]. split; [done|]. split; [done|].
  cbn [mem]. unfold getRoot.
  rewrite !(root_deref _ i _ r') by by apply list_lookup_insert_eq.
  cbn [subtree]. split; [done|]. split; [done|].
  by apply (grow_measures p name q ans r old a r').
Qed.

Lemma upcoming_0 x inp : upcoming 0 (x :: inp) = x.
Proof. done. Qed.

Lemma upcoming_S i x inp : upcoming (S i) (x :: inp) = upcoming i inp.
Proof. done. Qed.

Lemma is_yes_true answer : is_yes answer = true ↔ answer = "yes".
Proof. apply String.eqb_eq. Qed.

Lemma is_yes_false answer : is_yes answer = false ↔ answer ≠ "yes".
Proof. apply String.eqb_neq. Qed.

Lemma is_no_true answer : is_no answer = true ↔ answer = "no".
Proof. apply String.eqb_eq. Qed.

Lemma is_no_false answer : is_no answer = false ↔ answer ≠ "no".
Proof. apply String.eqb_neq. Qed.

(** ** The claims about [learnNewAnimal] *)

(** C1.  For every well-formed tree and every leaf of it labelled [X],
    [learnNewAnimal] at that leaf, reading the new label, the question and
    the answer, succeeds.  With answer "yes" the node that was the leaf is
    the question node with that text whose [yes] child is a new leaf with
    the new label and whose [no] child is a new leaf labelled [X]; with
    answer "no" the two children are swapped.  The labels [collectAnimals]
    finds afterwards are those it found before plus the new label, none lost
    and none duplicated. *)
Theorem learnNewAnimal_splits_leaf w current r old X newLabel q answer rest :
  mem w !! owner current = Some (mkTree (Some r)) →
  well_formed r = true →
  subtree r (path current) = Some old →
  animal old = Some (DynamicAnimal X) →
  cin w = newLabel :: q :: answer :: rest →
  ∃ w',
    learnNewAnimal current w = Ok (tt, w')
    ∧ cin w' = rest
    ∧ (answer = "yes" →
       deref (mem w') current
       = Some (mkNode q (Some (leaf newLabel)) (Some (leaf X)) None))
    ∧ (answer = "no" →
       deref (mem w') current
       = Some (mkNode q (Some (leaf X)) (Some (leaf newLabel)) None))
    ∧ collectAnimals (deref (mem w') (getRoot (owner current))) []
      ≡ₚ newLabel :: collectAnimals (deref (mem w) (getRoot (owner current))) [].
Proof.
  intros Hi Hr Hs Ha Hin.
  destruct (learn_at_leaf w current r old _ Hi Hr Hs Ha)
    as (r' & w' & Hrun & Hw' & _ & Hroot & Hcur & _ & Hl & _).
  rewrite Hin, ?upcoming_S, ?upcoming_0 in *.
  exists w'. split; [done|]. split; [by rewrite Hw'|].
  unfold getRoot at 2. rewrite (root_deref _ _ _ r Hi). cbn [subtree].
  rewrite Hroot, Hcur, !collectAnimals_labels. cbn [app].
  split_and!; [| |done].
  - intros ->. by rewrite (grow_yes _ _ _ _ _ Ha).
  - intros ->. by rewrite (grow_not_yes _ _ _ _ _ Ha).
Qed.

Lemma learnNewAnimal_splits_leaf_witness :
  ∃ w',
    learnNewAnimal (mkPtr 0 [true])
      (mkWorld [mkTree (Some initial_root)] ["Cat"; "Does it bark?"; "no"] [])
    = Ok (tt, w')
    ∧ collectAnimals (deref (mem w') (getRoot 0)) [] ≡ₚ ["Cat"; "Dog"; "Snake"].
Proof.
  destruct (learnNewAnimal_splits_leaf
              (mkWorld [mkTree (Some initial_root)] ["Cat"; "Does it bark?"; "no"] [])
              (mkPtr 0 [true]) initial_root (leaf "Dog") "Dog"
              "Cat" "Does it bark?" "no" [])
    as (w' & Hrun & _ & _ & _ & Hl); [reflexivity..|].
  exists w'. split; [exact Hrun | exact Hl].
Defined.

(** C10.  At a leaf of a well-formed tree, [learnNewAnimal] with any answer
    other than exactly "yes" (be it "no", the empty string or anything else)
    succeeds and ends in the very state the answer "no" leads to: the old
    label sits on the [yes] branch and the new label on the [no] branch. *)
Theorem learnNewAnimal_answer_not_yes w current r old a newLabel q answer rest :
  mem w !! owner current = Some (mkTree (Some r)) →
  well_formed r = true →
  subtree r (path current) = Some old →
  animal old = Some a →
  cin w = newLabel :: q :: answer :: rest →
  answer ≠ "yes" →
  ∃ w',
    learnNewAnimal current w = Ok (tt, w')
    ∧ learnNewAnimal current
        (mkWorld (mem w) (newLabel :: q :: "no" :: rest) (cout w))
      = Ok (tt, w')
    ∧ deref (mem w') current
      = Some (mkNode q (Some (Node_animal (Some a))) (Some (leaf newLabel)) None).
Proof.
  intros Hi Hr Hs Ha Hin Hans. apply is_yes_false in Hans.
  destruct (learn_at_leaf w current r old _ Hi Hr Hs Ha)
    as (r' & w' & Hrun & Hw' & Hu & _ & Hcur & _).
  destruct (learn_at_leaf (mkWorld (mem w) (newLabel :: q :: "no" :: rest) (cout w))
              current r old _ Hi Hr Hs Ha)
    as (r2 & w2 & Hrun2 & Hw2 & Hu2 & _).
  cbn [mem cin cout] in *. rewrite Hin, ?upcoming_S, ?upcoming_0 in *.
  rewrite (grow_not_yes _ _ _ _ _ Ha Hans) in Hcur.
  exists w'. split_and!; [done| |done].
  rewrite Hrun2, Hw2, Hw'. do 5 f_equal.
  assert (Some r2 = Some r') as [= ->]; [|done].
  rewrite <-Hu, <-Hu2. apply (update_ext _ _ _ r old); [done|].
  by rewrite (grow_not_yes _ _ answer _ _ Ha Hans),
    (grow_not_yes _ _ "no" _ _ Ha eq_refl).
Qed.

Lemma learnNewAnimal_answer_not_yes_witness :
  ∃ w',
    learnNewAnimal (mkPtr 0 [false])
      (mkWorld [mkTree (Some initial_root)] ["Cat"; "Does it purr?"; "maybe"] [])
    = Ok (tt, w')
    ∧ deref (mem w') (mkPtr 0 [false])
      = Some (mkNode "Does it purr?" (Some (leaf "Snake")) (Some (leaf "Cat")) None).
Proof.
  destruct (learnNewAnimal_answer_not_yes
              (mkWorld [mkTree (Some initial_root)] ["Cat"; "Does it purr?"; "maybe"] [])
              (mkPtr 0 [false]) initial_root (leaf "Snake") (DynamicAnimal "Snake")
              "Cat" "Does it purr?" "maybe" [])
    as (w' & Hrun & _ & Hcur); [reflexivity..|discriminate|].
  exists w'. split; [exact Hrun | exact Hcur].
Defined.

(** ** The traversal of [askQuestions] *)

Lemma load_run w p n : deref (mem w) p = Some n → load p w = Ok (n, w).
Proof. unfold load. by intros ->. Qed.

Lemma load_fault w p : deref (mem w) p = None → load p w = Fault.
Proof. unfold load. by intros ->. Qed.

Lemma askQuestions_body_run w current cur :
  deref (mem w) current = Some cur →
  askQuestions_body current w
  = Ok (next_of (upcoming 0 (cin w)) current,
        mkWorld (mem w) (drop 1 (cin w))
                (cout w ++ body_output (upcoming 0 (cin w)) cur)).
Proof.
  intros Hd. unfold askQuestions_body, next_of, body_output.
  erewrite bind_ok; [|by apply load_run].
  do 2 run_step.
  cbn [mem cin cout].
  destruct (is_yes _); [done|]. destruct (is_no _); [done|].
  run_step. unfold ret. cbn [mem cin cout].
  by rewrite <-(assoc_L (++)).
Qed.

Lemma askQuestions_loop_unfold fuel current w cur :
  deref (mem w) current = Some cur →
  askQuestions_loop (S fuel) current w
  = if isLeaf cur then Ok (current, w)
    else askQuestions_loop fuel (next_of (upcoming 0 (cin w)) current)
           (mkWorld (mem w) (drop 1 (cin w))
                    (cout w ++ body_output (upcoming 0 (cin w)) cur)).
Proof.
  intros Hd. cbn [askQuestions_loop].
  erewrite bind_ok; [|by apply load_run].
  destruct (isLeaf cur); [done|].
  erewrite bind_ok; [|by apply askQuestions_body_run]. done.
Qed.

Lemma owner_next_of answer current : owner (next_of answer current) = owner current.
Proof. unfold next_of. by destruct (is_yes answer), (is_no answer). Qed.

(** The loop leaves the trees alone and ends at a leaf of the tree it
    started in. *)
Lemma askQuestions_loop_inv fuel : ∀ current w leaf w',
  askQuestions_loop fuel current w = Ok (leaf, w') →
  mem w' = mem w ∧ owner leaf = owner current
  ∧ ∃ n, deref (mem w') leaf = Some n ∧ isLeaf n = true.
Proof.
  induction fuel as [|fuel IH]; intros current w leaf w' Hrun; [done|].
  destruct (deref (mem w) current) as [cur|] eqn:Hd.
  - rewrite (askQuestions_loop_unfold _ _ _ _ Hd) in Hrun.
    destruct (isLeaf cur) eqn:Hleaf.
    + simplify_eq. eauto.
    + apply IH in Hrun as (Hm & Ho & Hn). cbn [mem] in *.
      by rewrite owner_next_of in Ho.
  - cbn [askQuestions_loop] in Hrun. unfold bind in Hrun.
    by rewrite (load_fault _ _ Hd) in Hrun.
Qed.

(** After the loop: either nothing is written to the trees, or
    [learnNewAnimal] runs on the pointer the loop ended with. *)
Lemma askQuestions_guess_inv current w w' :
  askQuestions_guess current w = Ok (tt, w') →
  mem w' = mem w
  ∨ ∃ w1, mem w1 = mem w ∧ learnNewAnimal current w1 = Ok (tt, w').
Proof.
  unfold askQuestions_guess. intros Hrun.
  destruct (deref (mem w) current) as [cur|] eqn:Hd;
    [|unfold bind in Hrun; by rewrite (load_fault _ _ Hd) in Hrun].
  erewrite bind_ok in Hrun; [|by apply load_run].
  destruct (animal cur) as [a|]; [|done].
  erewrite bind_ok in Hrun; [|reflexivity].
  erewrite bind_ok in Hrun; [|apply print_run].
  erewrite bind_ok in Hrun; [|apply extract_run].
  cbn [mem cin cout] in Hrun.
  destruct (is_yes _); [left; rewrite print_run in Hrun; by simplify_eq|].
  destruct (is_no _); [|left; rewrite print_run in Hrun; by simplify_eq].
  right. eexists. split; [|exact Hrun]. done.
Qed.

(** An answer to the guess that is neither "yes" nor "no": the request to
    answer is written and nothing more happens. *)
Lemma askQuestions_guess_other w current cur a :
  deref (mem w) current = Some cur → animal cur = Some a →
  upcoming 0 (cin w) ≠ "yes" → upcoming 0 (cin w) ≠ "no" →
  askQuestions_guess current w
  = Ok (tt, mkWorld (mem w) (drop 1 (cin w))
              (cout w ++ ["Is it a " +:+ getName a +:+ "? (yes/no): "; reprompt])).
Proof.
  intros Hd Ha Hy%is_yes_false Hn%is_no_false. unfold askQuestions_guess.
  erewrite bind_ok; [|by apply load_run].
  rewrite Ha. do 3 run_step. cbn [mem cin cout]. rewrite Hy, Hn, print_run.
  cbn [mem cin cout]. by rewrite <-(assoc_L (++)).
Qed.

Lemma askQuestions_inv fuel current w w' :
  askQuestions fuel current w = Ok (tt, w') →
  mem w' = mem w
  ∨ ∃ leaf w1, mem w1 = mem w ∧ live_leaf w1 (owner current) leaf
      ∧ learnNewAnimal leaf w1 = Ok (tt, w').
Proof.
  unfold askQuestions, bind. intros Hrun.
  destruct (askQuestions_loop fuel current w) as [[leaf w0]| |] eqn:Hloop; [|done..].
  apply askQuestions_loop_inv in Hloop as (Hm & Ho & n & Hn & Hleaf).
  apply askQuestions_guess_inv in Hrun as [Hrun|(w1 & Hm1 & Hrun)].
  - left. congruence.
  - right. exists leaf, w1. split_and!; [congruence| |done].
    split; [done|]. exists n. by rewrite Hm1.
Qed.

(** ** The operations and the reachable states *)

Lemma print_each_run (l : list string) : ∀ w,
  foldr (λ a k, print ("- " +:+ a +:+ "
") ;;; k) (ret tt) l w
  = Ok (tt, mkWorld (mem w) (cin w)
              (cout w ++ ((λ a, "- " +:+ a +:+ "
") <$> l))).
Proof.
  induction l as [|a l IH]; intros w; cbn [foldr fmap list_fmap].
  - unfold ret. rewrite app_nil_r. by destruct w.
  - run_step. rewrite IH. cbn [mem cin cout].
    by rewrite <-(assoc_L (++)).
Qed.

Lemma listAnimals_run this w :
  listAnimals this w
  = Ok (tt, mkWorld (mem w) (cin w)
              (cout w ++ "Animals currently in memory:
" :: ((λ a, "- " +:+ a +:+ "
") <$> collectAnimals (deref (mem w) (getRoot this)) []))).
Proof.
  unfold listAnimals. run_step.
  rewrite print_each_run. cbn [mem cin cout]. by rewrite <-(assoc_L (++)).
Qed.

Lemma AnimalTree_new_run w :
  AnimalTree_new w
  = Ok (length (mem w),
        mkWorld (mem w ++ [mkTree (Some initial_root)]) (cin w) (cout w)).
Proof.
  unfold AnimalTree_new, bind, resetToInitialState, ret. cbn [mem cin cout].
  do 3 f_equal. rewrite insert_app_r_alt, Nat.sub_diag by done. done.
Qed.

Lemma trees_ok_insert m i r :
  trees_ok m → well_formed r = true → trees_ok (<[i := mkTree (Some r)]> m).
Proof.
  intros Hm Hr this t [(-> & <- & _)|(_ & Ht)]%list_lookup_insert_Some; eauto.
Qed.

Lemma deref_getRoot m this r :
  deref m (getRoot this) = Some r ↔ m !! this = Some (mkTree (Some r)).
Proof.
  unfold deref, getRoot. cbn [owner path subtree].
  destruct (m !! this) as [[[r0|]]|]; naive_solver.
Qed.

Lemma trees_ok_deref m this :
  trees_ok m → this < length m →
  ∃ r, deref m (getRoot this) = Some r ∧ well_formed r = true.
Proof.
  intros Hm [t Ht]%lookup_lt_is_Some_2.
  destruct (Hm this t Ht) as (r & Hr & Hwf). exists r. split; [|done].
  destruct t as [o]. simpl in Hr. subst o. by apply deref_getRoot.
Qed.

(** A completed [learnNewAnimal] on well-formed trees: every tree is still
    well formed, the tree written to has gained a question node and a leaf
    and kept every node, the other trees are as they were. *)
Lemma learnNewAnimal_trees w current w' :
  trees_ok (mem w) → learnNewAnimal current w = Ok (tt, w') →
  trees_ok (mem w')
  ∧ (∃ r r', mem w !! owner current = Some (mkTree (Some r))
       ∧ mem w' !! owner current = Some (mkTree (Some r'))
       ∧ leaf_count r' = leaf_count r + 1
       ∧ question_count r' = question_count r + 1
       ∧ node_count r' = node_count r + 2
       ∧ ∀ p, is_Some (subtree r p) → is_Some (subtree r' p))
  ∧ ∀ this, this ≠ owner current → mem w' !! this = mem w !! this.
Proof.
  intros Hm (r & cur & a & r' & Hi & Hs & Ha & Hu & ->)%learnNewAnimal_inv.
  destruct (Hm _ _ Hi) as (? & [= <-] & Hr).
  destruct (grow_measures _ _ _ _ r cur a r' Hr Hs Ha Hu)
    as (Hr' & _ & Hlc & Hqc & Hnc & Hkeep).
  cbn [mem]. split_and!.
  - by apply trees_ok_insert.
  - exists r, r'. split_and!; [done| |done..].
    apply list_lookup_insert_eq. by eapply lookup_lt_Some.
  - intros this Hne. by apply list_lookup_insert_ne.
Qed.

(** What an operation that completes does to well-formed trees. *)
Lemma run_op_trees o w w' :
  trees_ok (mem w) → run_op o w = Ok (tt, w') →
  trees_ok (mem w')
  ∧ ((∀ i, o ≠ OpReset i) → ∀ this r,
      mem w !! this = Some (mkTree (Some r)) →
      ∃ r', mem w' !! this = Some (mkTree (Some r'))
        ∧ node_count r ≤ node_count r'
        ∧ ∀ p, is_Some (subtree r p) → is_Some (subtree r' p)).
Proof.
  intros Hm Hrun.
  assert (Hlearn : ∀ current w1, mem w1 = mem w →
            learnNewAnimal current w1 = Ok (tt, w') →
            trees_ok (mem w')
            ∧ ∀ this r, mem w !! this = Some (mkTree (Some r)) →
              ∃ r', mem w' !! this = Some (mkTree (Some r'))
                ∧ node_count r ≤ node_count r'
                ∧ ∀ p, is_Some (subtree r p) → is_Some (subtree r' p)).
  { intros current w1 Hm1 Hl. rewrite <-Hm1 in *.
    destruct (learnNewAnimal_trees w1 current w' Hm Hl)
      as (Hm' & (r0 & r0' & Hi & Hi' & _ & _ & Hnc & Hkeep) & Hother).
    split; [done|]. intros this r Hr.
    destruct (decide (this = owner current)) as [->|Hne].
    - simplify_eq. exists r0'. split_and!; [done|lia|done].
    - exists r. by rewrite (Hother this Hne). }
  destruct o as [|i|current|fuel this0|this0]; cbn [run_op] in Hrun.
  - unfold bind in Hrun. rewrite AnimalTree_new_run in Hrun.
    unfold ret in Hrun. simplify_eq. cbn [mem]. split.
    + intros this t [Ht|(_ & Ht)]%lookup_app_Some; [by eauto|].
      apply list_lookup_singleton_Some in Ht as (_ & <-).
      by exists initial_root.
    + intros _ this r Hr. exists r. by rewrite (lookup_app_l_Some _ _ _ _ Hr).
  - unfold resetToInitialState in Hrun. simplify_eq. cbn [mem].
    split; [by apply trees_ok_insert|]. intros Hne. by destruct (Hne i).
  - destruct (Hlearn current w eq_refl Hrun) as (? & ?). eauto.
  - unfold play_round in Hrun.
    apply askQuestions_inv in Hrun as [->|(leaf & w1 & Hm1 & _ & Hl)].
    + split; [done|]. intros _ this r Hr. exists r. eauto.
    + destruct (Hlearn leaf w1 Hm1 Hl) as (? & ?). eauto.
  - rewrite listAnimals_run in Hrun. simplify_eq. cbn [mem].
    split; [done|]. intros _ this r Hr. exists r. eauto.
Qed.

Lemma reachable_trees_ok w : reachable w → trees_ok (mem w).
Proof.
  induction 1 as [inp out|w o w' _ IH Hrun|w inp _ IH]; cbn [mem].
  - by intros this t ?.
  - by destruct (run_op_trees o w w' IH Hrun).
  - done.
Qed.

(** ** The claims about the tree as a whole *)

(** C3.  Right after [AnimalTree] is constructed, and right after every
    [resetToInitialState] of a tree instance, the root is the question node
    "Is your animal warm or cold blooded?" whose [yes] child is the leaf
    "Dog" and whose [no] child is the leaf "Snake", and [collectAnimals]
    from the root gives exactly "Dog", "Snake" in that order. *)
Theorem default_shape :
  (∀ w, ∃ this w',
      AnimalTree_new w = Ok (this, w')
      ∧ deref (mem w') (getRoot this)
        = Some (mkNode "Is your animal warm or cold blooded?"
                  (Some (leaf "Dog")) (Some (leaf "Snake")) None)
      ∧ collectAnimals (deref (mem w') (getRoot this)) [] = ["Dog"; "Snake"])
  ∧ (∀ w this, this < length (mem w) →
      ∃ w',
        resetToInitialState this w = Ok (tt, w')
        ∧ deref (mem w') (getRoot this)
          = Some (mkNode "Is your animal warm or cold blooded?"
                    (Some (leaf "Dog")) (Some (leaf "Snake")) None)
        ∧ collectAnimals (deref (mem w') (getRoot this)) [] = ["Dog"; "Snake"]).
Proof.
  split.
  - intros w. eexists _, _. split; [apply AnimalTree_new_run|]. cbn [mem].
    assert (deref (mem w ++ [mkTree (Some initial_root)]) (getRoot (length (mem w)))
            = Some initial_root) as ->; [|done].
    apply deref_getRoot. by rewrite lookup_app_r, Nat.sub_diag.
  - intros w this Hlt. eexists. split; [reflexivity|]. cbn [mem].
    assert (deref (<[this:=mkTree (Some initial_root)]> (mem w)) (getRoot this)
            = Some initial_root) as ->; [|done].
    apply deref_getRoot. by apply list_lookup_insert_eq.
Qed.

Lemma default_shape_witness :
  ∃ w',
    resetToInitialState 0
      (mkWorld [mkTree (Some (mkNode "Can it fly?" (Some (leaf "Owl"))
                                (Some initial_root) None))] [] [])
    = Ok (tt, w')
    ∧ collectAnimals (deref (mem w') (getRoot 0)) [] = ["Dog"; "Snake"].
Proof.
  destruct (proj2 default_shape
              (mkWorld [mkTree (Some (mkNode "Can it fly?" (Some (leaf "Owl"))
                                        (Some initial_root) None))] [] [])
              0) as (w' & Hrun & _ & Hl); [simpl; lia|].
  exists w'. split; [exact Hrun | exact Hl].
Defined.

(** C9.  [collectAnimals] appends to the vector the labels of all leaves
    under the node it is given, depth first with the [yes] branch before the
    [no] branch (nothing for a null pointer), and [listAnimals], which calls
    it on the root, writes those labels and leaves every tree and the input
    as they were. *)
Theorem collectAnimals_depth_first :
  (∀ n animals, collectAnimals (Some n) animals = animals ++ labels n)
  ∧ (∀ animals, collectAnimals None animals = animals)
  ∧ (∀ this w, ∃ w',
      listAnimals this w = Ok (tt, w')
      ∧ mem w' = mem w ∧ cin w' = cin w
      ∧ cout w' = cout w ++ "Animals currently in memory:
" :: ((λ a, "- " +:+ a +:+ "
") <$> collectAnimals (deref (mem w) (getRoot this)) [])).
Proof.
  split_and!; [apply collectAnimals_labels|done|].
  intros this w. eexists. split; [apply listAnimals_run|done].
Qed.

(** C8.  In every reachable state every tree instance has a root, so that
    [getRoot] is never null, and every node of it that is not a leaf has
    both its [yes] and its [no] child. *)
Theorem root_and_children_present w this :
  reachable w → this < length (mem w) →
  ∃ r, deref (mem w) (getRoot this) = Some r
    ∧ ∀ p n, subtree r p = Some n → isLeaf n = false →
        is_Some (yes n) ∧ is_Some (no n).
Proof.
  intros Hw%reachable_trees_ok Hlt.
  destruct (trees_ok_deref _ _ Hw Hlt) as (r & Hd & Hr).
  exists r. split; [done|]. intros p n Hs Hleaf.
  pose proof (well_formed_subtree p r n Hr Hs) as Hn.
  destruct (well_formed_cases n Hn) as [(q & a & ->)|(q & y & f & -> & _)];
    [done|]. by split.
Qed.

Lemma root_and_children_present_witness :
  ∃ r, deref [mkTree (Some initial_root)] (getRoot 0) = Some r
    ∧ ∀ p n, subtree r p = Some n → isLeaf n = false →
        is_Some (yes n) ∧ is_Some (no n).
Proof.
  apply (root_and_children_present (mkWorld [mkTree (Some initial_root)] [] []) 0).
  - apply (reachable_op (mkWorld [] [] []) OpNew); [apply reachable_start|reflexivity].
  - simpl. lia.
Defined.

(** C4.  Every [learnNewAnimal] that completes in a reachable state adds
    exactly two nodes to the tree it writes to, one question node and one
    leaf; and no operation other than a reset removes a node from any tree:
    whatever position holds a node before holds one after. *)
Theorem growth_by_two :
  (∀ w current w',
      reachable w → learnNewAnimal current w = Ok (tt, w') →
      ∃ r r',
        deref (mem w) (getRoot (owner current)) = Some r
        ∧ deref (mem w') (getRoot (owner current)) = Some r'
        ∧ node_count r' = node_count r + 2
        ∧ question_count r' = question_count r + 1
        ∧ leaf_count r' = leaf_count r + 1)
  ∧ (∀ w o w' this r,
      reachable w → run_op o w = Ok (tt, w') → (∀ i, o ≠ OpReset i) →
      deref (mem w) (getRoot this) = Some r →
      ∃ r',
        deref (mem w') (getRoot this) = Some r'
        ∧ node_count r ≤ node_count r'
        ∧ ∀ p, is_Some (subtree r p) → is_Some (subtree r' p)).
Proof.
  split.
  - intros w current w' Hw%reachable_trees_ok Hrun.
    destruct (learnNewAnimal_trees w current w' Hw Hrun)
      as (_ & (r & r' & Hi & Hi' & Hlc & Hqc & Hnc & _) & _).
    exists r, r'. by rewrite !deref_getRoot.
  - intros w o w' this r Hw%reachable_trees_ok Hrun Hne Hr%deref_getRoot.
    destruct (run_op_trees o w w' Hw Hrun) as (_ & Hkeep).
    destruct (Hkeep Hne this r Hr) as (r' & Hr' & ?). exists r'.
    by rewrite deref_getRoot.
Qed.

Lemma growth_by_two_witness :
  ∃ r', deref
          (mem (mkWorld
                  [mkTree (Some taught_root)]
                  [] (learn_output "Cat" "Dog")))
          (getRoot 0) = Some r'
    ∧ node_count r' = node_count initial_root + 2.
Proof.
  destruct (proj1 growth_by_two
              (mkWorld [mkTree (Some initial_root)] ["Cat"; "Does it bark?"; "no"] [])
              (mkPtr 0 [true])
              (mkWorld
                  [mkTree (Some taught_root)]
                  [] (learn_output "Cat" "Dog")))
    as (r & r' & Hr & Hr' & Hn & _).
  - apply (reachable_input (mkWorld [mkTree (Some initial_root)] [] [])).
    apply (reachable_op (mkWorld [] [] []) OpNew); [apply reachable_start|reflexivity].
  - reflexivity.
  - exists r'. split; [exact Hr'|].
    cbv in Hr. injection Hr as <-. exact Hn.
Defined.

(** ** The claims about the traversal *)

(** C7.  One pass through the loop of [askQuestions] at a node: the answer
    "yes" moves [current] to the [yes] child and the answer "no" to the
    [no] child; any other answer leaves [current] where it is and only
    writes the request to answer 'yes' or 'no', after which the loop asks
    the same question again.  No tree is written to in any of the cases. *)
Theorem loop_body_step w current cur :
  deref (mem w) current = Some cur →
  ∃ next w',
    askQuestions_body current w = Ok (next, w')
    ∧ mem w' = mem w ∧ cin w' = drop 1 (cin w)
    ∧ (upcoming 0 (cin w) = "yes" →
       next = child true current ∧ deref (mem w') next = yes cur)
    ∧ (upcoming 0 (cin w) = "no" →
       next = child false current ∧ deref (mem w') next = no cur)
    ∧ (upcoming 0 (cin w) ≠ "yes" → upcoming 0 (cin w) ≠ "no" →
       next = current ∧ deref (mem w') next = Some cur
       ∧ cout w' = cout w ++ [question cur +:+ " (yes/no): "; reprompt]).
Proof.
  intros Hd. eexists _, _. split; [by apply askQuestions_body_run|].
  cbn [mem cin cout]. unfold next_of, body_output. split_and!; [done..| | |].
  - intros ->. split; [done|]. by apply (deref_child _ _ true).
  - intros ->. split; [done|]. by apply (deref_child _ _ false).
  - intros Hy%is_yes_false Hn%is_no_false. by rewrite Hy, Hn.
Qed.

Lemma loop_body_step_witness :
  ∃ next w',
    askQuestions_body (getRoot 0)
      (mkWorld [mkTree (Some initial_root)] ["perhaps"; "no"] []) = Ok (next, w')
    ∧ next = getRoot 0
    ∧ cout w' = ["Is your animal warm or cold blooded? (yes/no): "; reprompt].
Proof.
  destruct (loop_body_step
              (mkWorld [mkTree (Some initial_root)] ["perhaps"; "no"] [])
              (getRoot 0) initial_root eq_refl)
    as (next & w' & Hrun & _ & _ & _ & _ & Hother).
  destruct Hother as (Hnext & _ & Hout); [discriminate..|].
  exists next, w'. split; [exact Hrun|]. split; [exact Hnext | exact Hout].
Defined.

Lemma visited_unfold fuel current w cur :
  deref (mem w) current = Some cur →
  visited (S fuel) current w
  = current ::
    if isLeaf cur then []
    else visited fuel (next_of (upcoming 0 (cin w)) current)
           (mkWorld (mem w) (drop 1 (cin w))
                    (cout w ++ body_output (upcoming 0 (cin w)) cur)).
Proof.
  intros Hd. cbn [visited]. rewrite (load_run _ _ _ Hd).
  destruct (isLeaf cur); [done|]. by rewrite (askQuestions_body_run _ _ _ Hd).
Qed.

Lemma next_of_answer b current : next_of (answer_of b) current = child b current.
Proof. by destruct b. Qed.

(** The loop driven down a path of a well-formed tree by the answers that
    spell the path. *)
Lemma loop_along_path this r p : ∀ p0 n0 leaf0 w rest fuel,
  mem w !! this = Some (mkTree (Some r)) → well_formed r = true →
  subtree r p0 = Some n0 → subtree n0 p = Some leaf0 → isLeaf leaf0 = true →
  cin w = (answer_of <$> p) ++ rest →
  (fuel ≤ length p → askQuestions_loop fuel (mkPtr this p0) w = OutOfFuel)
  ∧ (length p < fuel →
     (∃ out, askQuestions_loop fuel (mkPtr this p0) w
             = Ok (mkPtr this (p0 ++ p), mkWorld (mem w) rest out))
     ∧ visited fuel (mkPtr this p0) w
       = (λ k, mkPtr this (p0 ++ take k p)) <$> seq 0 (S (length p))).
Proof.
  induction p as [|b p IH]; intros p0 n0 leaf0 w rest fuel Hi Hr Hp0 Hp Hleaf Hin.
  - cbn [subtree] in Hp. simplify_eq. cbn [fmap list_fmap app length] in *.
    split; [intros ?; by replace fuel with 0 by lia|].
    intros Hlt. destruct fuel as [|fuel]; [lia|].
    assert (Hd : deref (mem w) (mkPtr this p0) = Some leaf0)
      by by rewrite (root_deref _ _ _ _ Hi).
    rewrite (askQuestions_loop_unfold _ _ _ _ Hd), (visited_unfold _ _ _ _ Hd), Hleaf.
    rewrite app_nil_r. split; [|cbn; by rewrite app_nil_r].
    exists (cout w). destruct w. cbn [mem cin cout] in *. by subst.
  - cbn [subtree] in Hp. destruct (branch b n0) as [c|] eqn:Hb; [|done].
    cbn [fmap list_fmap app length] in *.
    split; [destruct fuel as [|fuel]; [done|]; intros Hle
           |destruct fuel as [|fuel]; [lia|]; intros Hlt].
    all: assert (Hd : deref (mem w) (mkPtr this p0) = Some n0)
           by by rewrite (root_deref _ _ _ _ Hi).
    all: assert (Hn0 : isLeaf n0 = false)
           by (pose proof (well_formed_subtree p0 r n0 Hr Hp0) as Hwf;
               destruct (well_formed_cases n0 Hwf) as [(?&?&->)|(?&?&?&->&_)];
               [by destruct b|done]).
    all: assert (Hc : subtree r (p0 ++ [b]) = Some c)
           by (rewrite subtree_app, Hp0; cbn [mbind option_bind subtree];
               by rewrite Hb).
    all: rewrite (askQuestions_loop_unfold _ _ _ _ Hd), Hn0, Hin, upcoming_0,
           next_of_answer; cbn [drop].
    all: set (w1 := mkWorld _ _ _).
    all: destruct (IH (p0 ++ [b]) c leaf0 w1 rest fuel Hi Hr Hc Hp Hleaf eq_refl)
           as (Hout & Hok).
    + apply Hout. lia.
    + destruct Hok as ((out & Hrun) & Hvis); [lia|]. split.
      * exists out. unfold child. cbn [owner path]. rewrite Hrun.
        by rewrite <-(assoc_L (++)).
      * rewrite (visited_unfold _ _ _ _ Hd), Hn0, Hin, upcoming_0, next_of_answer.
        cbn [drop]. fold w1. unfold child. cbn [owner path]. rewrite Hvis.
        change (seq 0 (S (S (length p)))) with (0 :: seq 1 (S (length p))).
        cbn [fmap list_fmap take].
        rewrite app_nil_r. f_equal. rewrite <-fmap_S_seq, <-list_fmap_compose.
        apply list_fmap_ext. intros _ k _. cbn [compose take].
        by rewrite <-(assoc_L (++)).
Qed.

(** C5.  In a reachable state, for every leaf of a tree, the loop of
    [askQuestions] started at the root and given the answers that spell the
    path to that leaf ends at that leaf.  It makes as many passes as the
    leaf is deep (the fuel runs out on fewer, and any more is enough), and
    the nodes [current] visits are the successive prefixes of the path, no
    node twice. *)
Theorem traversal_reaches_leaf w this r p leaf0 rest :
  reachable w →
  deref (mem w) (getRoot this) = Some r →
  subtree r p = Some leaf0 → isLeaf leaf0 = true →
  cin w = (answer_of <$> p) ++ rest →
  (∀ fuel, fuel ≤ length p →
     askQuestions_loop fuel (getRoot this) w = OutOfFuel)
  ∧ (∀ fuel, length p < fuel →
     (∃ w', askQuestions_loop fuel (getRoot this) w = Ok (mkPtr this p, w')
            ∧ mem w' = mem w ∧ cin w' = rest)
     ∧ visited fuel (getRoot this) w
       = (λ k, mkPtr this (take k p)) <$> seq 0 (S (length p))
     ∧ length (visited fuel (getRoot this) w) = S (length p)
     ∧ NoDup (visited fuel (getRoot this) w)).
Proof.
  intros Hw%reachable_trees_ok Hd%deref_getRoot Hp Hleaf Hin.
  destruct (Hw _ _ Hd) as (? & [= <-] & Hr).
  split; intros fuel Hfuel.
  - by apply (loop_along_path this r p [] r leaf0 w rest fuel).
  - destruct (loop_along_path this r p [] r leaf0 w rest fuel)
      as (_ & Hok); [done..|].
    destruct (Hok Hfuel) as ((out & Hrun) & Hvis).
    cbn [app] in *. fold (getRoot this) in *.
    split; [by eexists|]. rewrite Hvis. split; [done|].
    split; [by rewrite length_fmap, length_seq|].
    apply NoDup_fmap_2_strong; [|apply NoDup_seq].
    intros j k Hj%elem_of_seq Hk%elem_of_seq [= Heq].
    apply (f_equal length) in Heq. rewrite !length_take in Heq. lia.
Qed.

Lemma traversal_reaches_leaf_witness :
  ∃ w',
    askQuestions_loop 3 (getRoot 0)
      (mkWorld
         [mkTree (Some taught_root)]
         ["yes"; "no"; "no"] (learn_output "Cat" "Dog"))
    = Ok (mkPtr 0 [true; false], w')
    ∧ cin w' = ["no"].
Proof.
  destruct (traversal_reaches_leaf
              (mkWorld
                 [mkTree (Some taught_root)]
                 ["yes"; "no"; "no"] (learn_output "Cat" "Dog"))
              0 taught_root [true; false] (leaf "Cat") ["no"])
    as (_ & Hok); [|reflexivity..|].
  - apply (reachable_input
             (mkWorld
                [mkTree (Some taught_root)]
                [] (learn_output "Cat" "Dog"))).
    apply (reachable_op
             (mkWorld [mkTree (Some initial_root)] ["Cat"; "Does it bark?"; "no"] [])
             (OpLearn (mkPtr 0 [true]))); [|reflexivity].
    apply (reachable_input (mkWorld [mkTree (Some initial_root)] [] [])).
    apply (reachable_op (mkWorld [] [] []) OpNew); [apply reachable_start|reflexivity].
  - destruct (Hok 3) as ((w' & Hrun & _ & Hrest) & _); [simpl; lia|].
    exists w'. split; [exact Hrun | exact Hrest].
Defined.

(** C6.  At the Dog leaf of the initial tree the answer "maybe" to "Is it a
    Dog?" makes [askQuestions] write the request to answer 'yes' or 'no'
    and return: the round is over, the question is not asked again, and the
    answer "yes" that follows is left on the input for whatever reads next. *)
Theorem confirmation_not_repeated :
  (this <- AnimalTree_new ;; play_round 2 this)
    (mkWorld [] ["yes"; "maybe"; "yes"] [])
  = Ok (tt, mkWorld [mkTree (Some initial_root)] ["yes"]
              ["Is your animal warm or cold blooded? (yes/no): ";
               "Is it a Dog? (yes/no): ";
               reprompt]).
Proof. reflexivity. Qed.

(** C2, as the code has it.  [learnNewAnimal] does not check its pointer.
    Given a leaf of another tree instance than [this] it completes: that
    leaf becomes a question node, and the tree [this] is as it was.  Given
    a pointer to a node that is not a leaf, or to no node at all, it runs
    into the null pointer behind [current->animal].  And the pointer a
    round hands to it is a leaf of the tree the round started in. *)
Theorem learnNewAnimal_unchecked :
  (∀ w this current cur a,
      deref (mem w) current = Some cur → animal cur = Some a →
      owner current ≠ this →
      ∃ w' cur',
        learnNewAnimal current w = Ok (tt, w')
        ∧ mem w' !! this = mem w !! this
        ∧ deref (mem w') current = Some cur' ∧ isLeaf cur' = false)
  ∧ (∀ w current,
      (∀ n, deref (mem w) current = Some n → isLeaf n = false) →
      learnNewAnimal current w = Fault)
  ∧ (∀ fuel this w leaf0 w1,
      askQuestions_loop fuel (getRoot this) w = Ok (leaf0, w1) →
      live_leaf w1 this leaf0).
Proof.
  split_and!.
  - intros w this [i p] cur a Hd Ha Hne. cbn [owner] in Hne.
    destruct (deref_root _ _ _ Hd) as (r & Hi & Hs). cbn [owner path] in *.
    destruct (learnNewAnimal_run w i p r cur a Hi Hs Ha) as (r' & Hu & Hrun).
    destruct (update_subtree p (grow (upcoming 0 (cin w)) (upcoming 1 (cin w))
                (upcoming 2 (cin w))) r cur Hs) as (r'' & Hu' & Hs').
    assert (r'' = r') as -> by congruence.
    eexists _, _. split; [exact Hrun|]. cbn [mem].
    split; [by apply list_lookup_insert_ne|].
    split.
    + rewrite (root_deref _ i p r'); [exact Hs'|].
      apply list_lookup_insert_eq. by eapply lookup_lt_Some.
    + unfold grow. by destruct (is_yes _), cur.
  - intros w current Hn. apply learnNewAnimal_fault. intros n Hd.
    specialize (Hn n Hd). unfold isLeaf in Hn. by destruct (animal n).
  - intros fuel this w leaf0 w1 (Hm & Ho & n & Hn & Hleaf)%askQuestions_loop_inv.
    split; [done|]. by exists n.
Qed.

Lemma learnNewAnimal_unchecked_witness :
  ∃ w',
    learnNewAnimal (mkPtr 1 [true])
      (mkWorld [mkTree (Some initial_root); mkTree (Some initial_root)]
               ["Cat"; "Does it bark?"; "no"] [])
    = Ok (tt, w')
    ∧ mem w' !! 0 = Some (mkTree (Some initial_root)).
Proof.
  destruct (proj1 learnNewAnimal_unchecked
              (mkWorld [mkTree (Some initial_root); mkTree (Some initial_root)]
                       ["Cat"; "Does it bark?"; "no"] [])
              0 (mkPtr 1 [true]) (leaf "Dog") (DynamicAnimal "Dog"))
    as (w' & cur' & Hrun & Hsame & _); [reflexivity..|simpl; lia|].
  exists w'. split; [exact Hrun | exact Hsame].
Defined.

(** C2 as stated fails: a pointer to a leaf of tree 1 is not a leaf of
    tree 0, yet [learnNewAnimal] called with it signals nothing and
    completes, having rewritten tree 1. *)
Lemma foreign_leaf_not_rejected :
  ¬ live_leaf
      (mkWorld [mkTree (Some initial_root); mkTree (Some initial_root)]
               ["Cat"; "Does it bark?"; "no"] [])
      0 (mkPtr 1 [true])
  ∧ learnNewAnimal (mkPtr 1 [true])
      (mkWorld [mkTree (Some initial_root); mkTree (Some initial_root)]
               ["Cat"; "Does it bark?"; "no"] [])
    = Ok (tt, mkWorld
                [mkTree (Some initial_root);
                 mkTree (Some taught_root)]
                [] (learn_output "Cat" "Dog")).
Proof. split; [intros [? _]; discriminate | reflexivity]. Qed.

(** ** The menu of [promptAfterRound] *)

Lemma menu_read_run old w :
  foldr (λ s k, print s ;;; k) (extract_int old) menu_text w
  = extract_int old (mkWorld (mem w) (cin w) (cout w ++ menu_text)).
Proof.
  unfold menu_text. cbn [foldr]. do 6 run_step. cbn [mem cin cout].
  by rewrite <-!(assoc_L (++)).
Qed.

(** An extraction into an [int] always completes, and touches neither the
    trees nor the output. *)
Lemma extract_int_run old w :
  ∃ choice inp, extract_int old w = Ok (choice, mkWorld (mem w) inp (cout w)).
Proof.
  unfold extract_int. destruct w as [m [|tok inp] out]; cbn [mem cin cout].
  - by eexists _, _.
  - destruct (scan_int tok) as [[v rest]|]; [|by eexists _, _].
    destruct (v <? INT_MIN)%Z; [by eexists _, _|].
    destruct (INT_MAX <? v)%Z; by eexists _, _.
Qed.

Lemma promptAfterRound_unfold fuel this w :
  promptAfterRound (S fuel) this w
  = match extract_int None (mkWorld (mem w) (cin w) (cout w ++ menu_text)) with
    | Ok (choice, w1) => menu_switch this (promptAfterRound fuel this) choice w1
    | Fault => Crashed
    | OutOfFuel => Unfinished
    end.
Proof.
  cbn [promptAfterRound]. unfold andthen at 1, lift at 1.
  rewrite menu_read_run. by destruct (extract_int _ _) as [[??]| |].
Qed.

(** The ways out of the [switch]. *)
Lemma menu_switch_cases this again choice w :
  menu_switch this again choice w = Crashed
  ∨ menu_switch this again choice w = Returned tt w
  ∨ menu_switch this again choice w
    = Returned tt (mkWorld (<[this := mkTree (Some initial_root)]> (mem w)) (cin w)
                     (cout w ++ ["Game has been reset to initial state.
"]))
  ∨ menu_switch this again choice w = Exited 0 w
  ∨ ∃ out, menu_switch this again choice w
           = again (mkWorld (mem w) (cin w) (cout w ++ out)).
Proof.
  assert (Hinvalid : ∃ out,
            andthen (lift (print "Invalid choice. Please try again.
")) (λ _, again) w = again (mkWorld (mem w) (cin w) (cout w ++ out)))
    by by eexists.
  assert (Hlist : ∃ out,
            andthen (lift (listAnimals this)) (λ _, again) w
            = again (mkWorld (mem w) (cin w) (cout w ++ out))).
  { unfold andthen, lift. rewrite listAnimals_run. by eexists. }
  destruct choice as [[|[[[]|[]|]|[[]|[]|]|]|]|]; cbn [menu_switch]; eauto 10.
Qed.

(** X1.  Whatever is typed, the menu leaves every tree as it is, except that
    it may replace the tree of its own game by the initial tree; when it
    ends the process it has not touched any tree, and the exit status is
    zero. *)
Theorem promptAfterRound_trees fuel this : ∀ w,
  (∀ w', promptAfterRound fuel this w = Returned tt w' →
     mem w' = mem w ∨ mem w' = <[this := mkTree (Some initial_root)]> (mem w))
  ∧ (∀ status w', promptAfterRound fuel this w = Exited status w' →
     status = 0%Z ∧ mem w' = mem w).
Proof.
  induction fuel as [|fuel IH]; intros w; [done|].
  rewrite promptAfterRound_unfold.
  destruct (extract_int_run None (mkWorld (mem w) (cin w) (cout w ++ menu_text)))
    as (choice & inp & ->). cbn [mem cin cout].
  set (w1 := mkWorld _ _ _).
  destruct (menu_switch_cases this (promptAfterRound fuel this) choice w1)
    as [->|[->|[->|[->|(out & ->)]]]]; [done| | | |].
  - split; [|done]. intros w' [= <-]. by left.
  - split; [|done]. intros w' [= <-]. by right.
  - split; [done|]. by intros status w' [= <- <-].
  - apply (IH (mkWorld (mem w1) (cin w1) (cout w1 ++ out))).
Qed.

Lemma promptAfterRound_trees_witness :
  ∃ w',
    promptAfterRound 1 0 (mkWorld [mkTree (Some taught_root)] ["2"] [])
    = Returned tt w'
    ∧ (mem w' = [mkTree (Some taught_root)]
       ∨ mem w' = <[0 := mkTree (Some initial_root)]> [mkTree (Some taught_root)]).
Proof.
  eexists. split; [reflexivity|].
  apply (proj1 (promptAfterRound_trees 1 0
                  (mkWorld [mkTree (Some taught_root)] ["2"] []))).
  reflexivity.
Defined.

(** X2.  A menu answer that does not start with a number, or that is a
    number outside the range of [int], cannot be recovered from, and neither
    can the end of the input: the extraction fails, the stream stays failed,
    and [promptAfterRound] ends up reading a [choice] nothing was stored
    in. *)
Theorem promptAfterRound_not_a_number fuel this w :
  (cin w = [] → promptAfterRound (S fuel) this w = Crashed)
  ∧ (∀ tok inp, cin w = tok :: inp →
       scan_int tok = None
       ∨ (∃ v rest, scan_int tok = Some (v, rest)
                    ∧ (v < INT_MIN ∨ INT_MAX < v)%Z) →
       promptAfterRound (S (S fuel)) this w = Crashed).
Proof.
  split.
  - intros Hin. rewrite promptAfterRound_unfold. unfold extract_int.
    cbn [mem cin cout]. by rewrite Hin.
  - intros tok inp Hin Hbad. rewrite promptAfterRound_unfold. unfold extract_int.
    cbn [mem cin cout]. rewrite Hin.
    assert (Hagain : ∀ m out,
              menu_switch this (promptAfterRound (S fuel) this) (Some 0%Z)
                (mkWorld m [] out) = Crashed
              ∧ menu_switch this (promptAfterRound (S fuel) this) (Some INT_MIN)
                  (mkWorld m [] out) = Crashed
              ∧ menu_switch this (promptAfterRound (S fuel) this) (Some INT_MAX)
                  (mkWorld m [] out) = Crashed).
    { intros m out. cbn [menu_switch INT_MIN INT_MAX]. unfold andthen, lift.
      rewrite !print_run, !promptAfterRound_unfold. by unfold extract_int. }
    destruct Hbad as [->|(v & rest & -> & Hv)]; [apply Hagain|].
    destruct (Z.ltb_spec v INT_MIN); [apply Hagain|].
    destruct (Z.ltb_spec INT_MAX v); [apply Hagain|lia].
Qed.

Lemma promptAfterRound_not_a_number_witness :
  promptAfterRound 2 0 (mkWorld [mkTree (Some initial_root)] ["yes"; "1"] [])
  = Crashed.
Proof.
  apply (proj2 (promptAfterRound_not_a_number 0 0
                  (mkWorld [mkTree (Some initial_root)] ["yes"; "1"] []))
           "yes" ["1"]); [reflexivity|].
  left. reflexivity.
Defined.

(** ** The game loop *)

Lemma well_formed_counts r :
  well_formed r = true → leaf_count r = question_count r + 1.
Proof.
  induction r as [q y f a IHy IHf] using Node_tree_ind. intros Hr.
  destruct (well_formed_cases _ Hr) as [(?&?&[= -> -> -> ->])|(?&?&?&[= -> -> -> ->]&Hy&Hf)].
  - done.
  - simpl in *. rewrite (IHy Hy), (IHf Hf). lia.
Qed.

Lemma labels_length r : well_formed r = true → length (labels r) = leaf_count r.
Proof.
  induction r as [q y f a IHy IHf] using Node_tree_ind. intros Hr.
  destruct (well_formed_cases _ Hr) as [(?&?&[= -> -> -> ->])|(?&?&?&[= -> -> -> ->]&Hy&Hf)].
  - done.
  - simpl in *. by rewrite length_app, (IHy Hy), (IHf Hf).
Qed.

(** A round keeps the number of tree instances and the trees of the other
    games. *)
Lemma askQuestions_others fuel current w w' :
  askQuestions fuel current w = Ok (tt, w') →
  length (mem w') = length (mem w)
  ∧ ∀ other, other ≠ owner current → mem w' !! other = mem w !! other.
Proof.
  intros [->|(leaf0 & w1 & Hm1 & [Ho _] & Hl)]%askQuestions_inv; [done|].
  apply learnNewAnimal_inv in Hl as (r & cur & a & r' & _ & _ & _ & _ & ->).
  cbn [mem]. rewrite Hm1, Ho, length_insert. split; [done|].
  intros other Hne. by apply list_lookup_insert_ne.
Qed.

(** The loop of [play] keeps the trees well formed and their number, and
    comes out in one of two ways only: the process exits with status zero,
    or something went wrong. *)
Lemma play_loop_inv fuel rounds this : ∀ w,
  trees_ok (mem w) →
  match play_loop fuel rounds this w with
  | Returned _ _ => False
  | Exited status w' =>
      status = 0%Z ∧ trees_ok (mem w') ∧ length (mem w') = length (mem w)
  | Crashed | Unfinished => True
  end.
Proof.
  induction rounds as [|rounds IH]; intros w Hw; [done|].
  cbn [play_loop]. unfold andthen at 1, lift at 1.
  destruct (play_round fuel this w) as [[[] w1]| |] eqn:Hround; [|done..].
  destruct (run_op_trees (OpRound fuel this) w w1 Hw Hround) as (Hw1 & _).
  destruct (askQuestions_others _ _ _ _ Hround) as (Hlen1 & _).
  unfold andthen at 1.
  destruct (promptAfterRound_trees fuel this w1) as (Hret & Hexit).
  destruct (promptAfterRound fuel this w1) as [[] w2|status w2| |]; [| |done..].
  - assert (trees_ok (mem w2) ∧ length (mem w2) = length (mem w)) as (Hw2 & Hlen2).
    { destruct (Hret w2 eq_refl) as [->| ->]; [done|].
      rewrite length_insert. split; [|done].
      by apply trees_ok_insert. }
    specialize (IH w2 Hw2).
    destruct (play_loop fuel rounds this w2); [done| |done..].
    destruct IH as (? & ? & ?). split_and!; [done..|congruence].
  - destruct (Hexit status w2 eq_refl) as (-> & Hm). rewrite Hm.
    split_and!; [done..].
Qed.

Lemma play_inv fuel this w :
  trees_ok (mem w) →
  match play fuel this w with
  | Returned _ _ => False
  | Exited status w' =>
      status = 0%Z ∧ trees_ok (mem w') ∧ length (mem w') = length (mem w)
  | Crashed | Unfinished => True
  end.
Proof.
  intros Hw. unfold play, andthen, lift. rewrite print_run.
  by apply (play_loop_inv fuel fuel this (mkWorld (mem w) (cin w) _)).
Qed.

Lemma main_inv fuel inp out :
  match main fuel (mkWorld [] inp out) with
  | Returned _ _ => False
  | Exited status w' =>
      status = 0%Z ∧ ∃ r, mem w' = [mkTree (Some r)] ∧ well_formed r = true
  | Crashed | Unfinished => True
  end.
Proof.
  unfold main, andthen at 1, lift at 1.
  rewrite AnimalTree_new_run. cbn [mem cin cout length app].
  unfold andthen.
  assert (Hw : trees_ok (mem (mkWorld [mkTree (Some initial_root)] inp out))).
  { intros this t Ht. apply list_lookup_singleton_Some in Ht as (_ & <-).
    by exists initial_root. }
  pose proof (play_inv fuel 0 _ Hw) as Hplay.
  destruct (play fuel 0 _) as [|status w'| |]; [done| |done..].
  destruct Hplay as (-> & Hw' & Hlen). split; [done|]. cbn [mem length] in Hlen.
  destruct (mem w') as [|[o] [|??]] eqn:Hm; [done| |done].
  destruct (Hw' 0 (mkTree o) eq_refl) as (r & Hr & Hwf). cbn [root] in Hr.
  subst o. by exists r.
Qed.

(** Without any assumption on the trees. *)
Lemma play_loop_outcome fuel rounds this : ∀ w,
  match play_loop fuel rounds this w with
  | Returned _ _ => False
  | Exited status _ => status = 0%Z
  | Crashed | Unfinished => True
  end.
Proof.
  induction rounds as [|rounds IH]; intros w; [done|].
  cbn [play_loop]. unfold andthen at 1, lift at 1.
  destruct (play_round fuel this w) as [[[] w1]| |]; [|done..].
  unfold andthen at 1.
  destruct (promptAfterRound_trees fuel this w1) as (_ & Hexit).
  destruct (promptAfterRound fuel this w1) as [[] w2|status w2| |]; [| |done..].
  - apply IH.
  - by destruct (Hexit status w2 eq_refl).
Qed.

(** X3.  [play] never returns: the statement after it in [main] is never
    reached, and the only way the process ends is the exit with status
    zero. *)
Theorem play_never_returns fuel :
  (∀ this w a w', play fuel this w ≠ Returned a w')
  ∧ (∀ this w status w', play fuel this w = Exited status w' → status = 0%Z)
  ∧ (∀ w a w', main fuel w ≠ Returned a w')
  ∧ (∀ w status w', main fuel w = Exited status w' → status = 0%Z).
Proof.
  assert (Hplay : ∀ this w,
            match play fuel this w with
            | Returned _ _ => False
            | Exited status _ => status = 0%Z
            | Crashed | Unfinished => True
            end).
  { intros this w. unfold play, andthen, lift. rewrite print_run.
    apply (play_loop_outcome fuel fuel this). }
  assert (Hmain : ∀ w,
            match main fuel w with
            | Returned _ _ => False
            | Exited status _ => status = 0%Z
            | Crashed | Unfinished => True
            end).
  { intros w. unfold main, andthen at 1, lift at 1. rewrite AnimalTree_new_run.
    unfold andthen. specialize (Hplay (length (mem w))
      (mkWorld (mem w ++ [mkTree (Some initial_root)]) (cin w) (cout w))).
    by destruct (play fuel _ _). }
  split_and!.
  - intros this w a w' Hrun. specialize (Hplay this w). by rewrite Hrun in Hplay.
  - intros this w status w' Hrun. specialize (Hplay this w). by rewrite Hrun in Hplay.
  - intros w a w' Hrun. specialize (Hmain w). by rewrite Hrun in Hmain.
  - intros w status w' Hrun. specialize (Hmain w). by rewrite Hrun in Hmain.
Qed.

Lemma play_never_returns_witness :
  ∃ status w',
    main 3 (mkWorld [] ["yes"; "yes"; "4"] []) = Exited status w'
    ∧ status = 0%Z.
Proof.
  eexists _, _. split; [vm_compute; reflexivity|].
  eapply (proj2 (proj2 (proj2 (play_never_returns 3)))
            (mkWorld [] ["yes"; "yes"; "4"] [])).
  vm_compute; reflexivity.
Defined.

(** X4.  When the program started without any tree exits, it holds exactly
    one tree, and that tree is sound: it has a root, every node of it is
    either a leaf without children or a question with both children, and
    the listing shows one animal more than there are questions. *)
Theorem main_exit_tree fuel inp out status w' :
  main fuel (mkWorld [] inp out) = Exited status w' →
  ∃ r, mem w' = [mkTree (Some r)]
    ∧ deref (mem w') (getRoot 0) = Some r
    ∧ well_formed r = true
    ∧ length (collectAnimals (Some r) []) = question_count r + 1.
Proof.
  intros Hrun. pose proof (main_inv fuel inp out) as H. rewrite Hrun in H.
  destruct H as (_ & r & Hm & Hr). exists r. rewrite Hm.
  split_and!; [done..|].
  rewrite collectAnimals_labels. cbn [app].
  by rewrite (labels_length r Hr), (well_formed_counts r Hr).
Qed.

Lemma main_exit_tree_witness :
  ∃ r, deref [mkTree (Some taught_root)] (getRoot 0) = Some r
    ∧ length (collectAnimals (Some r) []) = question_count r + 1.
Proof.
  destruct (main_exit_tree 4
              ["yes"; "no"; "Cat"; "Does it bark?"; "no"; "4"] [] 0%Z
              (mkWorld [mkTree (Some taught_root)] []
                 (["Welcome to The Animal Game!
"; "Is your animal warm or cold blooded? (yes/no): "; "Is it a Dog? (yes/no): "]
                  ++ learn_output "Cat" "Dog" ++ menu_text)))
    as (r & _ & Hr & _ & Hl); [vm_compute; reflexivity|].
  exists r. split; [exact Hr | exact Hl].
Defined.

(** ** More about rounds *)

(** X5.  In every reachable state the listing of a tree shows exactly one
    animal more than the tree has questions, and the tree has an odd number
    of nodes. *)
Theorem animals_one_more_than_questions w this r :
  reachable w → deref (mem w) (getRoot this) = Some r →
  length (collectAnimals (Some r) []) = question_count r + 1
  ∧ node_count r = 2 * question_count r + 1.
Proof.
  intros Hw%reachable_trees_ok Hd%deref_getRoot.
  destruct (Hw _ _ Hd) as (? & [= <-] & Hr).
  rewrite collectAnimals_labels, node_count_split. cbn [app].
  rewrite (labels_length r Hr), (well_formed_counts r Hr). lia.
Qed.

Lemma animals_one_more_than_questions_witness :
  length (collectAnimals (Some taught_root) []) = question_count taught_root + 1
  ∧ node_count taught_root = 2 * question_count taught_root + 1.
Proof.
  apply (animals_one_more_than_questions
           (mkWorld [mkTree (Some taught_root)] [] (learn_output "Cat" "Dog")) 0).
  - apply (reachable_op
             (mkWorld [mkTree (Some initial_root)] ["Cat"; "Does it bark?"; "no"] [])
             (OpLearn (mkPtr 0 [true]))); [|reflexivity].
    apply (reachable_input (mkWorld [mkTree (Some initial_root)] [] [])).
    apply (reachable_op (mkWorld [] [] []) OpNew); [apply reachable_start|reflexivity].
  - reflexivity.
Defined.

(** X8.  At the end of the input the loop of [askQuestions] never gets away
    from a question: each pass reads an empty answer and asks again, so
    that no amount of fuel is enough, and the program started on an empty
    input never ends. *)
Theorem end_of_input_never_answers fuel :
  (∀ current w cur,
      deref (mem w) current = Some cur → isLeaf cur = false → cin w = [] →
      askQuestions fuel current w = OutOfFuel)
  ∧ (∀ out, main fuel (mkWorld [] [] out) = Unfinished).
Proof.
  assert (Hloop : ∀ current w cur,
            deref (mem w) current = Some cur → isLeaf cur = false → cin w = [] →
            askQuestions_loop fuel current w = OutOfFuel).
  { induction fuel as [|fuel IH]; intros current w cur Hd Hleaf Hin; [done|].
    rewrite (askQuestions_loop_unfold _ _ _ _ Hd), Hleaf, Hin.
    by apply (IH _ _ cur). }
  split.
  - intros current w cur Hd Hleaf Hin. unfold askQuestions, bind.
    by rewrite (Hloop current w cur).
  - intros out.
    assert (Hplay : ∀ w, deref (mem w) (getRoot 0) = Some initial_root →
              cin w = [] → play fuel 0 w = Unfinished).
    { intros w Hd Hin. unfold play, andthen, lift. rewrite print_run.
      destruct fuel as [|fuel']; [done|]. cbn [play_loop].
      unfold andthen, lift, play_round, askQuestions, bind.
      by rewrite (Hloop (getRoot 0) _ initial_root). }
    unfold main, andthen, lift. rewrite AnimalTree_new_run.
    cbn [mem cin cout length app]. by rewrite Hplay.
Qed.

Lemma end_of_input_never_answers_witness :
  askQuestions 7 (mkPtr 0 []) (mkWorld [mkTree (Some taught_root)] [] [])
  = OutOfFuel.
Proof.
  apply (proj1 (end_of_input_never_answers 7) (mkPtr 0 [])
           (mkWorld [mkTree (Some taught_root)] [] []) taught_root);
    reflexivity.
Defined.

(** X9.  A round only ever writes to the tree it was started on: the trees
    of all other games are as they were, and no tree is created or
    destroyed. *)
Theorem round_writes_own_tree_only fuel this w w' :
  play_round fuel this w = Ok (tt, w') →
  length (mem w') = length (mem w)
  ∧ ∀ other, other ≠ this → mem w' !! other = mem w !! other.
Proof. intros Hrun. by apply (askQuestions_others fuel (getRoot this)). Qed.

Lemma round_writes_own_tree_only_witness :
  ∃ w',
    play_round 2 1
      (mkWorld [mkTree (Some initial_root); mkTree (Some initial_root)]
               ["no"; "no"; "Eel"; "Has it fins?"; "yes"] [])
    = Ok (tt, w')
    ∧ mem w' !! 0 = Some (mkTree (Some initial_root)).
Proof.
  eexists. split; [vm_compute; reflexivity|].
  refine (proj2 (round_writes_own_tree_only 2 1
                   (mkWorld [mkTree (Some initial_root); mkTree (Some initial_root)]
                            ["no"; "no"; "Eel"; "Has it fins?"; "yes"] [])
                   _ _) 0 _); [vm_compute; reflexivity|discriminate].
Defined.

(** A round that follows the path to a leaf and then gets the answer "yes"
    to its guess. *)
Lemma round_confirmed_run this r p leaf0 a w rest fuel :
  mem w !! this = Some (mkTree (Some r)) → well_formed r = true →
  subtree r p = Some leaf0 → animal leaf0 = Some a →
  cin w = (answer_of <$> p) ++ "yes" :: rest → length p < fuel →
  ∃ out,
    askQuestions fuel (getRoot this) w
    = Ok (tt, mkWorld (mem w) rest
                (out ++ ["Is it a " +:+ getName a +:+ "? (yes/no): ";
                         "Yay! I guessed it right!
"])).
Proof.
  intros Hi Hr Hp Ha Hin Hfuel.
  assert (Hleaf : isLeaf leaf0 = true) by (unfold isLeaf; by rewrite Ha).
  destruct (loop_along_path this r p [] r leaf0 w ("yes" :: rest) fuel
              Hi Hr eq_refl Hp Hleaf Hin) as (_ & Hok).
  destruct (Hok Hfuel) as ((out & Hrun) & _). cbn [app] in Hrun.
  unfold askQuestions. erewrite bind_ok; [|exact Hrun].
  unfold askQuestions_guess.
  erewrite bind_ok;
    [|apply load_run; cbn [mem]; by rewrite (root_deref _ _ _ _ Hi)].
  rewrite Ha. do 3 run_step. cbn [mem cin cout upcoming]. simpl.
  exists out. rewrite print_run. cbn [mem cin cout].
  by rewrite <-(assoc_L (++)).
Qed.

(** A round that follows the path to a leaf, gets the answer "no" to its
    guess and is taught. *)
Lemma round_taught_run this r p old a w name q ans rest fuel :
  mem w !! this = Some (mkTree (Some r)) → well_formed r = true →
  subtree r p = Some old → animal old = Some a →
  cin w = (answer_of <$> p) ++ "no" :: name :: q :: ans :: rest →
  length p < fuel →
  ∃ r' w',
    askQuestions fuel (getRoot this) w = Ok (tt, w')
    ∧ mem w' = <[this := mkTree (Some r')]> (mem w) ∧ cin w' = rest
    ∧ update r p (grow name q ans) = Some r'
    ∧ well_formed r' = true
    ∧ subtree r' p = Some (grow name q ans old)
    ∧ labels r' ≡ₚ name :: labels r.
Proof.
  intros Hi Hr Hp Ha Hin Hfuel.
  assert (Hleaf : isLeaf old = true) by (unfold isLeaf; by rewrite Ha).
  destruct (loop_along_path this r p [] r old w ("no" :: name :: q :: ans :: rest)
              fuel Hi Hr eq_refl Hp Hleaf Hin) as (_ & Hok).
  destruct (Hok Hfuel) as ((out & Hrun) & _). cbn [app] in Hrun.
  unfold askQuestions. erewrite bind_ok; [|exact Hrun].
  unfold askQuestions_guess.
  erewrite bind_ok;
    [|apply load_run; cbn [mem]; by rewrite (root_deref _ _ _ _ Hi)].
  rewrite Ha. do 3 run_step. cbn [mem cin cout drop]. rewrite upcoming_0.
  change (is_yes "no") with false. change (is_no "no") with true. cbn iota.
  match goal with
  | |- context [learnNewAnimal ?c ?w1] =>
      destruct (learn_at_leaf w1 c r old a Hi Hr Hp Ha)
        as (r' & w' & Hl & Hw' & Hu & _ & Hcur & Hr' & Hlab & _)
  end.
  cbn [mem cin cout owner path] in *. rewrite ?upcoming_S, ?upcoming_0 in *.
  exists r', w'. rewrite Hl. split; [done|]. subst w'. cbn [mem cin cout].
  split_and!; [done..| |done].
  rewrite (root_deref _ this p r') in Hcur; [done|].
  apply list_lookup_insert_eq. by eapply lookup_lt_Some.
Qed.

(** X10.  A round whose answers lead to a leaf and whose guess is confirmed
    with "yes" changes no tree: it reads these answers and nothing more,
    asks whether it is that animal and reports success. *)
Theorem confirmed_guess_changes_nothing w this r p leaf0 a rest fuel :
  deref (mem w) (getRoot this) = Some r → well_formed r = true →
  subtree r p = Some leaf0 → animal leaf0 = Some a →
  cin w = (answer_of <$> p) ++ "yes" :: rest → length p < fuel →
  ∃ w' out,
    play_round fuel this w = Ok (tt, w')
    ∧ mem w' = mem w ∧ cin w' = rest
    ∧ cout w' = out ++ ["Is it a " +:+ getName a +:+ "? (yes/no): ";
                        "Yay! I guessed it right!
"].
Proof.
  intros Hi%deref_getRoot Hr Hp Ha Hin Hfuel.
  destruct (round_confirmed_run this r p leaf0 a w rest fuel Hi Hr Hp Ha Hin Hfuel)
    as (out & Hrun).
  eexists _, out. by split; [exact Hrun|].
Qed.

Lemma confirmed_guess_changes_nothing_witness :
  ∃ w' out,
    play_round 3 0 (mkWorld [mkTree (Some taught_root)] ["yes"; "no"; "yes"; "1"] [])
    = Ok (tt, w')
    ∧ mem w' = [mkTree (Some taught_root)] ∧ cin w' = ["1"]
    ∧ cout w' = out ++ ["Is it a Cat? (yes/no): "; "Yay! I guessed it right!
"].
Proof.
  apply (confirmed_guess_changes_nothing
           (mkWorld [mkTree (Some taught_root)] ["yes"; "no"; "yes"; "1"] [])
           0 taught_root [true; false] (leaf "Cat") (DynamicAnimal "Cat") ["1"] 3);
    [reflexivity..|simpl; lia].
Defined.

(** X11.  A round whose answers lead to a leaf and whose guess is rejected
    with "no" teaches at that very leaf: it reads the new animal, the
    question and the answer, the leaf becomes that question with the old
    and the new animal below it, and the listing gains the new animal and
    nothing else. *)
Theorem wrong_guess_teaches w this r p old a name q ans rest fuel :
  deref (mem w) (getRoot this) = Some r → well_formed r = true →
  subtree r p = Some old → animal old = Some a →
  cin w = (answer_of <$> p) ++ "no" :: name :: q :: ans :: rest →
  length p < fuel →
  ∃ w',
    play_round fuel this w = Ok (tt, w')
    ∧ cin w' = rest
    ∧ deref (mem w') (mkPtr this p)
      = Some (if is_yes ans
              then mkNode q (Some (leaf name)) (Some (Node_animal (Some a))) None
              else mkNode q (Some (Node_animal (Some a))) (Some (leaf name)) None)
    ∧ collectAnimals (deref (mem w') (getRoot this)) []
      ≡ₚ name :: collectAnimals (Some r) [].
Proof.
  intros Hi%deref_getRoot Hr Hp Ha Hin Hfuel.
  destruct (round_taught_run this r p old a w name q ans rest fuel
              Hi Hr Hp Ha Hin Hfuel)
    as (r' & w' & Hrun & Hm & Hrest & _ & _ & Hcur & Hlab).
  assert (Hi' : mem w' !! this = Some (mkTree (Some r'))).
  { rewrite Hm. apply list_lookup_insert_eq. by eapply lookup_lt_Some. }
  exists w'. split; [exact Hrun|]. split; [done|].
  rewrite (root_deref _ _ _ _ Hi'), (proj2 (deref_getRoot _ _ _) Hi').
  rewrite !collectAnimals_labels. cbn [app]. split; [|done].
  rewrite Hcur. f_equal. destruct (is_yes ans) eqn:Hans.
  - by apply grow_yes.
  - by apply grow_not_yes.
Qed.

Lemma wrong_guess_teaches_witness :
  ∃ w',
    play_round 2 0
      (mkWorld [mkTree (Some initial_root)]
               ["yes"; "no"; "Cat"; "Does it bark?"; "no"; "4"] [])
    = Ok (tt, w')
    ∧ cin w' = ["4"]
    ∧ collectAnimals (deref (mem w') (getRoot 0)) [] ≡ₚ ["Cat"; "Dog"; "Snake"].
Proof.
  destruct (wrong_guess_teaches
              (mkWorld [mkTree (Some initial_root)]
                       ["yes"; "no"; "Cat"; "Does it bark?"; "no"; "4"] [])
              0 initial_root [true] (leaf "Dog") (DynamicAnimal "Dog")
              "Cat" "Does it bark?" "no" ["4"] 2)
    as (w' & Hrun & Hrest & _ & Hlab); [reflexivity..|simpl; lia|].
  exists w'. split; [exact Hrun|]. split; [exact Hrest | exact Hlab].
Defined.

(** X6.  What a round has been taught, later rounds guess: after the round
    of X11, the answers that led to the old leaf followed by the answer
    given for the new animal lead to the guess of the new animal, and
    followed by the opposite answer to the guess of the old one. *)
Theorem taught_animal_is_guessed w this r p old a name q ans rest fuel :
  deref (mem w) (getRoot this) = Some r → well_formed r = true →
  subtree r p = Some old → animal old = Some a →
  cin w = (answer_of <$> p) ++ "no" :: name :: q :: ans :: rest →
  length p < fuel →
  ∃ w',
    play_round fuel this w = Ok (tt, w')
    ∧ ∀ inp out0 fuel', S (length p) < fuel' →
        (∃ out,
           play_round fuel' this
             (mkWorld (mem w')
                ((answer_of <$> p ++ [is_yes ans]) ++ "yes" :: inp) out0)
           = Ok (tt, mkWorld (mem w') inp
                       (out ++ ["Is it a " +:+ name +:+ "? (yes/no): ";
                                "Yay! I guessed it right!
"])))
        ∧ (∃ out,
           play_round fuel' this
             (mkWorld (mem w')
                ((answer_of <$> p ++ [negb (is_yes ans)]) ++ "yes" :: inp) out0)
           = Ok (tt, mkWorld (mem w') inp
                       (out ++ ["Is it a " +:+ getName a +:+ "? (yes/no): ";
                                "Yay! I guessed it right!
"]))).
Proof.
  intros Hi%deref_getRoot Hr Hp Ha Hin Hfuel.
  destruct (round_taught_run this r p old a w name q ans rest fuel
              Hi Hr Hp Ha Hin Hfuel)
    as (r' & w' & Hrun & Hm & _ & _ & Hr' & Hcur & _).
  assert (Hi' : mem w' !! this = Some (mkTree (Some r'))).
  { rewrite Hm. apply list_lookup_insert_eq. by eapply lookup_lt_Some. }
  exists w'. split; [exact Hrun|]. intros inp out0 fuel' Hfuel'.
  assert (Hsub : ∀ b, subtree r' (p ++ [b])
                      = Some (if eqb b (is_yes ans) then leaf name
                              else Node_animal (Some a))).
  { intros b. rewrite subtree_app, Hcur. cbn [mbind option_bind subtree].
    destruct (is_yes ans) eqn:Hans;
      [rewrite (grow_yes _ _ _ _ _ Ha Hans)
      |rewrite (grow_not_yes _ _ _ _ _ Ha Hans)]; by destruct b. }
  split.
  - apply (round_confirmed_run this r' (p ++ [is_yes ans]) (leaf name)
             (DynamicAnimal name) (mkWorld (mem w') _ out0) inp fuel');
      [done..| |done|done|rewrite length_app; simpl; lia].
    rewrite Hsub. by destruct (is_yes ans).
  - apply (round_confirmed_run this r' (p ++ [negb (is_yes ans)])
             (Node_animal (Some a)) a (mkWorld (mem w') _ out0) inp fuel');
      [done..| |done|done|rewrite length_app; simpl; lia].
    rewrite Hsub. by destruct (is_yes ans).
Qed.

Lemma taught_animal_is_guessed_witness :
  ∃ w',
    play_round 2 0
      (mkWorld [mkTree (Some initial_root)]
               ["yes"; "no"; "Cat"; "Does it bark?"; "no"] [])
    = Ok (tt, w')
    ∧ ∃ out,
        play_round 3 0 (mkWorld (mem w') ["yes"; "no"; "yes"] [])
        = Ok (tt, mkWorld (mem w') []
                    (out ++ ["Is it a Cat? (yes/no): "; "Yay! I guessed it right!
"])).
Proof.
  destruct (taught_animal_is_guessed
              (mkWorld [mkTree (Some initial_root)]
                       ["yes"; "no"; "Cat"; "Does it bark?"; "no"] [])
              0 initial_root [true] (leaf "Dog") (DynamicAnimal "Dog")
              "Cat" "Does it bark?" "no" [] 2)
    as (w' & Hrun & Hnext); [reflexivity..|simpl; lia|].
  exists w'. split; [exact Hrun|].
  destruct (Hnext [] [] 3) as (Hnew & _); [simpl; lia|]. exact Hnew.
Defined.

(** A write leaves alone every position that is neither on the way to the
    written node nor below it. *)
Lemma update_frame p f : ∀ p' r r',
  update r p f = Some r' →
  ¬ p `prefix_of` p' → ¬ p' `prefix_of` p →
  subtree r' p' = subtree r p'.
Proof.
  induction p as [|b p IH]; intros p' r r' Hu Hpp' Hp'p.
  - destruct Hpp'. apply prefix_nil.
  - destruct p' as [|b' p']; [destruct Hp'p; apply prefix_nil|].
    simpl in Hu. destruct (branch b r) as [c|] eqn:Hb; [|done].
    destruct (update c p f) as [c'|] eqn:Hc; [|done]. simplify_eq.
    cbn [subtree]. destruct (decide (b' = b)) as [->|Hne].
    + rewrite branch_set, Hb. apply (IH p' c c' Hc).
      * intros Hpre. apply Hpp'. by apply prefix_cons.
      * intros Hpre. apply Hp'p. by apply prefix_cons.
    + replace (branch b' (if b then set_yes (Some c') r else set_no (Some c') r))
        with (branch b' r); [done|].
      by destruct b, b', r.
Qed.

(** Nothing lies below a leaf of a well-formed tree. *)
Lemma leaf_no_extension r p p' n :
  well_formed r = true → subtree r p = Some n → isLeaf n = true →
  p `prefix_of` p' → is_Some (subtree r p') → p' = p.
Proof.
  intros Hr Hp Hleaf [k ->] Hp'. rewrite subtree_app, Hp in Hp'.
  cbn [mbind option_bind] in Hp'.
  pose proof (well_formed_subtree p r n Hr Hp) as Hn.
  destruct (well_formed_cases n Hn) as [(?&?&->)|(?&?&?&->&_)]; [|done].
  destruct k as [|[] k]; [by rewrite app_nil_r|by destruct Hp' ..].
Qed.

(** X7.  Teaching at one leaf moves no other animal: every other leaf of
    the tree is, after [learnNewAnimal], found at the position it had, so
    that the answers that led to it before still lead to it. *)
Theorem other_leaves_stay w current r old a p' n' :
  mem w !! owner current = Some (mkTree (Some r)) →
  well_formed r = true →
  subtree r (path current) = Some old → animal old = Some a →
  subtree r p' = Some n' → isLeaf n' = true → p' ≠ path current →
  ∃ w',
    learnNewAnimal current w = Ok (tt, w')
    ∧ deref (mem w') (mkPtr (owner current) p') = Some n'.
Proof.
  intros Hi Hr Hp Ha Hp' Hleaf' Hne.
  assert (Hleaf : isLeaf old = true) by (unfold isLeaf; by rewrite Ha).
  destruct (learn_at_leaf w current r old a Hi Hr Hp Ha)
    as (r' & w' & Hrun & Hw' & Hu & _).
  exists w'. split; [done|]. subst w'. cbn [mem].
  rewrite (root_deref _ _ _ r');
    [|apply list_lookup_insert_eq; by eapply lookup_lt_Some].
  rewrite <-Hp'. apply (update_frame _ _ _ _ _ Hu).
  - intros Hpre. apply Hne.
    by apply (leaf_no_extension r (path current) p' old).
  - intros Hpre. apply Hne. symmetry.
    by apply (leaf_no_extension r p' (path current) n').
Qed.

Lemma other_leaves_stay_witness :
  ∃ w',
    learnNewAnimal (mkPtr 0 [false])
      (mkWorld [mkTree (Some taught_root)] ["Eel"; "Has it fins?"; "yes"] [])
    = Ok (tt, w')
    ∧ deref (mem w') (mkPtr 0 [true; false]) = Some (leaf "Cat").
Proof.
  apply (other_leaves_stay
           (mkWorld [mkTree (Some taught_root)] ["Eel"; "Has it fins?"; "yes"] [])
           (mkPtr 0 [false]) taught_root (leaf "Snake") (DynamicAnimal "Snake")
           [true; false] (leaf "Cat")); [reflexivity..|discriminate].
Defined.

(** X12.  [learnNewAnimal] checks none of what it reads.  At the end of the
    input, where every extraction leaves its string empty, it still
    rewrites the leaf: the question is empty, the old animal goes to the
    [yes] branch and a new animal with the empty name to the [no] branch. *)
Theorem learnNewAnimal_at_end_of_input w current r old a :
  mem w !! owner current = Some (mkTree (Some r)) →
  well_formed r = true →
  subtree r (path current) = Some old → animal old = Some a →
  cin w = [] →
  ∃ w',
    learnNewAnimal current w = Ok (tt, w')
    ∧ cin w' = []
    ∧ deref (mem w') current
      = Some (mkNode "" (Some (Node_animal (Some a))) (Some (leaf "")) None)
    ∧ collectAnimals (deref (mem w') (getRoot (owner current))) []
      ≡ₚ "" :: collectAnimals (Some r) [].
Proof.
  intros Hi Hr Hp Ha Hin.
  destruct (learn_at_leaf w current r old a Hi Hr Hp Ha)
    as (r' & w' & Hrun & Hw' & _ & Hroot & Hcur & _ & Hlab & _).
  rewrite Hin in *. exists w'. split; [done|]. split; [by rewrite Hw'|].
  rewrite Hcur, Hroot, !collectAnimals_labels. cbn [app]. split; [|done].
  f_equal. by apply grow_not_yes.
Qed.

Lemma learnNewAnimal_at_end_of_input_witness :
  ∃ w',
    learnNewAnimal (mkPtr 0 [true]) (mkWorld [mkTree (Some initial_root)] [] [])
    = Ok (tt, w')
    ∧ collectAnimals (deref (mem w') (getRoot 0)) [] ≡ₚ [""; "Dog"; "Snake"].
Proof.
  destruct (learnNewAnimal_at_end_of_input
              (mkWorld [mkTree (Some initial_root)] [] [])
              (mkPtr 0 [true]) initial_root (leaf "Dog") (DynamicAnimal "Dog"))
    as (w' & Hrun & _ & _ & Hlab); [reflexivity..|].
  exists w'. split; [exact Hrun | exact Hlab].
Defined.

(** X13.  Answers to a question that are neither "yes" nor "no" are
    skipped, however many there are: each costs one pass of the loop, a
    repetition of the question and the request to answer 'yes' or 'no',
    and then the loop goes on from the same node with the input that
    follows them. *)
Theorem invalid_answers_are_skipped bad : ∀ current w cur rest fuel,
  deref (mem w) current = Some cur → isLeaf cur = false →
  Forall (λ t, t ≠ "yes" ∧ t ≠ "no") bad →
  cin w = bad ++ rest →
  askQuestions_loop (length bad + fuel) current w
  = askQuestions_loop fuel current
      (mkWorld (mem w) rest
         (cout w ++ concat ((λ _, [question cur +:+ " (yes/no): "; reprompt])
                              <$> bad))).
Proof.
  induction bad as [|t bad IH]; intros current w cur rest fuel Hd Hleaf Hbad Hin.
  - cbn [length Nat.add fmap list_fmap concat app] in *. rewrite app_nil_r.
    destruct w. cbn [mem cin cout] in *. by subst.
  - apply Forall_cons in Hbad as ((Hy%is_yes_false & Hn%is_no_false) & Hbad).
    cbn [length Nat.add fmap list_fmap concat app] in *.
    rewrite (askQuestions_loop_unfold _ _ _ _ Hd), Hleaf, Hin, upcoming_0.
    unfold next_of, body_output. rewrite Hy, Hn. cbn [drop].
    rewrite (IH current _ cur rest fuel); [|done..]. cbn [mem cin cout].
    by rewrite <-(assoc_L (++)).
Qed.

Lemma invalid_answers_are_skipped_witness :
  askQuestions_loop (2 + 2) (getRoot 0)
    (mkWorld [mkTree (Some initial_root)] ["y"; "nope"; "no"; "yes"] [])
  = askQuestions_loop 2 (getRoot 0)
      (mkWorld [mkTree (Some initial_root)] ["no"; "yes"]
         ["Is your animal warm or cold blooded? (yes/no): "; reprompt;
          "Is your animal warm or cold blooded? (yes/no): "; reprompt]).
Proof.
  apply (invalid_answers_are_skipped ["y"; "nope"] (getRoot 0)
           (mkWorld [mkTree (Some initial_root)] ["y"; "nope"; "no"; "yes"] [])
           initial_root ["no"; "yes"] 2); [reflexivity..| |reflexivity].
  repeat constructor; discriminate.
Defined.



